(** * ini_parser: a shallow embedding of [src/main.cpp] and its specification

    The parser of [main.cpp] walks an in-memory buffer with an integer
    cursor and pushes (section, key, value) triples of slices.  The
    embedding keeps that shape: the parser state is a record, every
    [while] loop of the source is a recursive function on a fuel argument
    that is instantiated with the number of bytes left (each loop advances
    the cursor by at least one per iteration; the results are the same for
    any larger fuel), and every function that returns an error code returns
    a [result]. *)

From Stdlib Require Import List Ascii String Arith Bool Lia.
Import ListNotations.

(** ** Bytes *)

Definition NUL : ascii := "000"%char.
Definition TAB : ascii := "009"%char.
Definition LF : ascii := "010"%char.
Definition CR : ascii := "013"%char.
Definition SP : ascii := " "%char.
Definition SEMI : ascii := ";"%char.
Definition EQUALS : ascii := "="%char.
Definition LBRACKET : ascii := "["%char.
Definition RBRACKET : ascii := "]"%char.

(** [case ' ': case '\t':] *)
Definition is_blank (c : ascii) : bool := Ascii.eqb c SP || Ascii.eqb c TAB.

(** [case '\r': case '\n':] *)
Definition is_eol (c : ascii) : bool := Ascii.eqb c CR || Ascii.eqb c LF.

(** ** Data model *)

(** [struct buffer { char *data; int length; }] owning the file contents:
    the bytes themselves; [buf.length] is [List.length]. *)
Definition buffer := list ascii.

(** [typedef buffer slice]: a pointer into the parser's buffer and a length.
    The pointer is an offset from [buf.data]; [None] is the null pointer of a
    value-initialised slice. *)
Record slice := { data : option nat; length : nat }.

(** [struct ini_kv]; its [section] is named [kv_section] here, next to the
    [section] of [ini_parser]. *)
Record ini_kv := { kv_section : slice; key : slice; value : slice }.

(** The [int] fields [cursor] and [line] are natural numbers: they are only
    incremented, and the section on their ranges at the end shows that they
    stay within [buf.length + 2], so that no increment overflows on a buffer
    [read_entire_file] can hold. *)
Record ini_parser := {
  buf : buffer;
  cursor : nat;
  line : nat;
  section : slice;
  properties : list ini_kv
}.

(** The four [fprintf(stderr, "[line %d] ...")] diagnostics. *)
Inductive diagnostic :=
| UnterminatedSection   (* Expected ']', encountered EOF instead *)
| MissingEquals         (* Expected '=', encountered EOL instead *)
| MissingEqualsEOF      (* Expected '=' after key, encountered EOF instead *)
| MissingValue.         (* Expected value after '=', encountered EOF isntead *)

(** Outcome of a function returning an error code through [int]:
    [Ok] is [return 0]; [Err d ln ini] is the diagnostic [d] printed with
    line [ln] followed by [return -1], the parser being left as [ini];
    [Abort] is a failed [assert] ([main.cpp] does not define [NDEBUG]; with
    the assertions compiled out, the only one that can fail, [key_end], would
    leave [key_end - key_begin] with a null [key_end], undefined
    behaviour). *)
Inductive result :=
| Ok (ini : ini_parser)
| Err (d : diagnostic) (ln : nat) (ini : ini_parser)
| Abort.

(** ** Field updates *)

Definition set_cursor (n : nat) (ini : ini_parser) : ini_parser :=
  {| buf := buf ini; cursor := n; line := line ini;
     section := section ini; properties := properties ini |}.

(** [ini->cursor++] *)
Definition incr_cursor (ini : ini_parser) : ini_parser :=
  set_cursor (cursor ini + 1) ini.

(** [ini->line++] *)
Definition incr_line (ini : ini_parser) : ini_parser :=
  {| buf := buf ini; cursor := cursor ini; line := line ini + 1;
     section := section ini; properties := properties ini |}.

Definition set_section (s : slice) (ini : ini_parser) : ini_parser :=
  {| buf := buf ini; cursor := cursor ini; line := line ini;
     section := s; properties := properties ini |}.

(** [ini->properties.push_back(kv)] *)
Definition push_back (kv : ini_kv) (ini : ini_parser) : ini_parser :=
  {| buf := buf ini; cursor := cursor ini; line := line ini;
     section := section ini; properties := properties ini ++ [kv] |}.

(** [ini->buf.data[i]]; the byte at index [buf.length] is the terminating
    NUL that [read_entire_file] allocates. *)
Definition byte_at (ini : ini_parser) (i : nat) : ascii := nth i (buf ini) NUL.

(** [ini->cursor < ini->buf.length] *)
Definition in_bounds (ini : ini_parser) : bool :=
  cursor ini <? List.length (buf ini).

(** Bytes from the cursor to the end of the buffer: the bound on the number
    of iterations of every loop below. *)
Definition remaining (ini : ini_parser) : nat :=
  List.length (buf ini) - cursor ini.

(** ** The parser *)

(** [ini_parser ini{}]: every field zero, the section slice null and
    empty. *)
Definition ini_zero : ini_parser :=
  {| buf := []; cursor := 0; line := 0;
     section := {| data := None; length := 0 |}; properties := [] |}.

Definition init_ini (ini : ini_parser) (b : buffer) : ini_parser :=
  {| buf := b; cursor := cursor ini; line := 1;
     section := section ini; properties := properties ini |}.

Fixpoint discard_whitespace_loop (fuel : nat) (ini : ini_parser) : ini_parser :=
  match fuel with
  | 0 => ini
  | S fuel' =>
      if in_bounds ini then
        if is_blank (byte_at ini (cursor ini))
        then discard_whitespace_loop fuel' (incr_cursor ini)
        else ini
      else ini
  end.

Definition discard_whitespace (ini : ini_parser) : ini_parser :=
  discard_whitespace_loop (remaining ini) ini.

Fixpoint discard_comment_loop (fuel : nat) (ini : ini_parser) : ini_parser :=
  match fuel with
  | 0 => ini
  | S fuel' =>
      if in_bounds ini then
        if is_eol (byte_at ini (cursor ini))
        then ini
        else discard_comment_loop fuel' (incr_cursor ini)
      else ini
  end.

Definition discard_comment (ini : ini_parser) : ini_parser :=
  discard_comment_loop (remaining ini) ini.

Fixpoint parse_section_header_loop (fuel : nat) (section_begin : nat)
    (ini : ini_parser) : result :=
  match fuel with
  | 0 => Err UnterminatedSection (line ini) ini
  | S fuel' =>
      if in_bounds ini then
        if Ascii.eqb (byte_at ini (cursor ini)) RBRACKET
        then
          let section_end := cursor ini in
          Ok (set_section {| data := Some section_begin;
                             length := section_end - section_begin |} ini)
        else parse_section_header_loop fuel' section_begin (incr_cursor ini)
      else Err UnterminatedSection (line ini) ini
  end.

(** The loop returns from inside at the [']'], so the test of
    [section_done] after it always takes the error branch. *)
Definition parse_section_header (ini : ini_parser) : result :=
  let ini := incr_cursor ini in
  let section_begin := cursor ini in
  parse_section_header_loop (remaining ini) section_begin ini.

(** The key loop of [parse_kv] either returns from inside the loop at a line
    terminator or leaves the loop with [key_done] and [key_end]. *)
Inductive key_scan :=
| KeyEOL (ini : ini_parser)
| KeyExit (key_done : bool) (key_end : option nat) (ini : ini_parser).

Fixpoint parse_kv_key_loop (fuel : nat) (key_end : option nat)
    (ini : ini_parser) : key_scan :=
  match fuel with
  | 0 => KeyExit false key_end ini
  | S fuel' =>
      if in_bounds ini then
        let c := byte_at ini (cursor ini) in
        if Ascii.eqb c EQUALS then KeyExit true key_end (incr_cursor ini)
        else if is_blank c then parse_kv_key_loop fuel' key_end (incr_cursor ini)
        else if is_eol c then KeyEOL ini
        else parse_kv_key_loop fuel' (Some (cursor ini + 1)) (incr_cursor ini)
      else KeyExit false key_end ini
  end.

(** The value loop of [parse_kv]: returns [value_end] and the parser. *)
Fixpoint parse_kv_value_loop (fuel : nat) (value_end : option nat)
    (ini : ini_parser) : option nat * ini_parser :=
  match fuel with
  | 0 => (value_end, ini)
  | S fuel' =>
      if in_bounds ini then
        let c := byte_at ini (cursor ini) in
        if is_eol c then (value_end, incr_cursor ini)
        else if is_blank c then parse_kv_value_loop fuel' value_end (incr_cursor ini)
        else parse_kv_value_loop fuel' (Some (cursor ini + 1)) (incr_cursor ini)
      else (value_end, ini)
  end.

(** Lines 163-194 of [parse_kv]: skip the blanks before the key, note
    [key_begin], run the key loop. *)
Definition parse_kv_key (ini : ini_parser) : nat * key_scan :=
  let ini := discard_whitespace ini in
  let key_begin := cursor ini in
  (key_begin, parse_kv_key_loop (remaining ini) None ini).

(** Lines 201-227 of [parse_kv]: skip the blanks before the value, note
    [value_begin], run the value loop. *)
Definition parse_kv_value (ini : ini_parser) : nat * option nat * ini_parser :=
  let ini := discard_whitespace ini in
  let value_begin := cursor ini in
  let (value_end, ini) := parse_kv_value_loop (remaining ini) None ini in
  (value_begin, value_end, ini).

Definition parse_kv (ini : ini_parser) : result :=
  match parse_kv_key ini with
  | (_, KeyEOL ini) => Err MissingEquals (line ini) ini
  | (_, KeyExit false _ ini) => Err MissingEqualsEOF (line ini) ini
  | (key_begin, KeyExit true key_end ini) =>
      match parse_kv_value ini with
      | (_, None, ini) => Err MissingValue (line ini) ini
      | (value_begin, Some value_end, ini) =>
          (* assert(key_begin); assert(key_end);
             assert(value_begin); assert(value_end); *)
          match key_end with
          | None => Abort
          | Some key_end =>
              Ok (push_back
                    {| kv_section := section ini;
                       key := {| data := Some key_begin;
                                    length := key_end - key_begin |};
                       value := {| data := Some value_begin;
                                      length := value_end - value_begin |} |}
                    ini)
          end
      end
  end.

(** The [switch] of [parse_ini], before the trailing [ini->cursor++]. *)
Definition dispatch (ini : ini_parser) : result :=
  let c := byte_at ini (cursor ini) in
  if Ascii.eqb c CR then
    if (cursor ini <? List.length (buf ini) - 1)
       && Ascii.eqb (byte_at ini (cursor ini + 1)) LF
    then Ok ini
    else Ok (incr_line ini)
  else if Ascii.eqb c LF then Ok (incr_line ini)
  else if is_blank c then Ok ini
  else if Ascii.eqb c SEMI then Ok (discard_comment ini)
  else if Ascii.eqb c LBRACKET then parse_section_header ini
  else parse_kv ini.

(** One iteration of the [while] of [parse_ini]. *)
Definition parse_ini_step (ini : ini_parser) : result :=
  match dispatch ini with
  | Ok ini' => Ok (incr_cursor ini')
  | r => r
  end.

Fixpoint parse_ini_loop (fuel : nat) (ini : ini_parser) : result :=
  match fuel with
  | 0 => Ok ini
  | S fuel' =>
      if in_bounds ini then
        match parse_ini_step ini with
        | Ok ini' => parse_ini_loop fuel' ini'
        | r => r
        end
      else Ok ini
  end.

Definition parse_ini (ini : ini_parser) : result :=
  parse_ini_loop (remaining ini) ini.

(** ** Scanning lists

    The loops of the parser are scans of the bytes that follow the cursor;
    their results are stated with the longest prefix of that suffix whose
    bytes pass a test. *)

Section Scan.
Variable A : Type.
Variable p : A -> bool.

Fixpoint take_while (l : list A) : list A :=
  match l with
  | [] => []
  | x :: t => if p x then x :: take_while t else []
  end.

Fixpoint drop_while (l : list A) : list A :=
  match l with
  | [] => []
  | x :: t => if p x then drop_while t else l
  end.

End Scan.

Arguments take_while {A} p l.
Arguments drop_while {A} p l.

(** ** The caller, [main] *)

(** The parser [main] runs on the contents of the file. *)
Definition load (b : buffer) : ini_parser := init_ini ini_zero b.

(** The [length] bytes at [data]. *)
Definition slice_bytes (b : buffer) (s : slice) : list ascii :=
  match data s with
  | None => []
  | Some o => firstn (length s) (skipn o b)
  end.

Definition slice_string (b : buffer) (s : slice) : string :=
  string_of_list_ascii (slice_bytes b s).

(** A record with its three slices as strings. *)
Definition kv_strings (b : buffer) (kv : ini_kv) : string * string * string :=
  (slice_string b (kv_section kv), slice_string b (key kv),
   slice_string b (value kv)).

(** A record as the bytes of its three slices. *)
Definition kv_bytes (b : buffer) (kv : ini_kv)
    : list ascii * list ascii * list ascii :=
  (slice_bytes b (kv_section kv), slice_bytes b (key kv),
   slice_bytes b (value kv)).

Definition not_nul (c : ascii) : bool := negb (Ascii.eqb c NUL).

(** What the conversion [%.*s] of [printf] writes for the [length] bytes [l]
    at [data]: the bytes up to the first NUL among them, and all of them when
    none is a NUL. *)
Definition printf_field (l : list ascii) : string :=
  string_of_list_ascii (take_while not_nul l).

(** [printf("[%.*s] %.*s = %.*s\n", ...)] on the three slices of a record. *)
Definition printf_record (t : list ascii * list ascii * list ascii)
    : string :=
  let '(sec, k, v) := t in
  ("[" ++ printf_field sec ++ "] " ++ printf_field k ++ " = "
   ++ printf_field v ++ String LF EmptyString)%string.

(** What [main] writes on stdout, one string per [printf]: nothing when
    [parse_ini] returns a negative code, one line per property otherwise.
    The null section slice of a record pushed before any header has length
    0: nothing is written for it. *)
Definition main_stdout (b : buffer) : list string :=
  match parse_ini (load b) with
  | Ok ini => map (fun kv => printf_record (kv_bytes b kv)) (properties ini)
  | _ => []
  end.

(** Parsing a string literal, with the outcome rendered as strings. *)
Inductive outcome :=
| Parsed (records : list (string * string * string)) (ln : nat)
| Failed (d : diagnostic) (ln : nat) (records : list (string * string * string))
| Aborted.

Definition run (s : string) : outcome :=
  let b := list_ascii_of_string s in
  match parse_ini (load b) with
  | Ok ini => Parsed (map (kv_strings b) (properties ini)) (line ini)
  | Err d ln ini => Failed d ln (map (kv_strings b) (properties ini))
  | Abort => Aborted
  end.

Definition nl : string := String LF EmptyString.
Definition cr : string := String CR EmptyString.
Definition crlf : string := String CR (String LF EmptyString).

(** ** The bytes ahead of the cursor *)

(** The bytes from the cursor on. *)
Definition suffix (ini : ini_parser) : list ascii := skipn (cursor ini) (buf ini).

(** The tentative end pointer of the key and value loops: every byte that is
    not a space or a tab moves it just past that byte. [c] is the offset of
    the first byte of [l]. *)
Fixpoint track_end (c : nat) (e : option nat) (l : list ascii) : option nat :=
  match l with
  | [] => e
  | x :: t => track_end (c + 1) (if is_blank x then e else Some (c + 1)) t
  end.

(** Stripping spaces and tabs: at the front, at the back, on both sides. *)
Definition lstrip (l : list ascii) : list ascii := drop_while is_blank l.
Definition rstrip (l : list ascii) : list ascii := rev (lstrip (rev l)).
Definition trim (l : list ascii) : list ascii := rstrip (lstrip l).

Definition not_eol (c : ascii) : bool := negb (is_eol c).
Definition not_equals (c : ascii) : bool := negb (Ascii.eqb c EQUALS).
Definition not_rbracket (c : ascii) : bool := negb (Ascii.eqb c RBRACKET).
(** A byte the key loop steps over: anything but [=], [\r], [\n]. *)
Definition key_byte (c : ascii) : bool := not_equals c && not_eol c.

(** ** What [parse_kv] makes of a line

    [pre] are the bytes from the cursor up to the first [=], [r2] the bytes
    after that [=]. *)

(** The record pushed: the key is [pre] and the value is [r2] up to the first
    line terminator, both without the blanks around them. *)
Definition kv_record (ini : ini_parser) (pre r2 : list ascii) : ini_kv :=
  {| kv_section := section ini;
     key :=
       {| data := Some (cursor ini + List.length (take_while is_blank pre));
          length := List.length (trim pre) |};
     value :=
       {| data := Some (cursor ini + List.length pre + 1
                        + List.length (take_while is_blank r2));
          length := List.length (trim (take_while not_eol r2)) |} |}.

(** The cursor [parse_kv] returns with: past the first line terminator after
    the [=], or at the end of the buffer when there is none. *)
Definition kv_end (ini : ini_parser) (pre r2 : list ascii) : nat :=
  cursor ini + List.length pre + 1 + List.length (take_while not_eol r2)
  + match drop_while not_eol r2 with [] => 0 | _ :: _ => 1 end.

(** The [default:] case of the [switch] of [parse_ini]. *)
Definition is_kv_start (c : ascii) : bool :=
  negb (Ascii.eqb c CR) && negb (Ascii.eqb c LF) && negb (is_blank c)
  && negb (Ascii.eqb c SEMI) && negb (Ascii.eqb c LBRACKET).

(** ** Runs of the top-level loop *)

(** [steps s s']: the loop of [parse_ini] goes from [s] to [s'] in zero or
    more iterations, none of which returns an error. *)
Inductive steps : ini_parser -> ini_parser -> Prop :=
| steps_refl s : steps s s
| steps_next s s' s'' :
    in_bounds s = true -> parse_ini_step s = Ok s' -> steps s' s'' ->
    steps s s''.

(** ** The history of a run *)










(** ** The lines of the input, in the words of the specification

    The specification counts the syntactically valid [key = value] lines of
    the input.  These definitions read the buffer as text, without the
    parser: lines end at [\r\n], [\n] or [\r]; a line is blank, a comment
    (first byte [;] after blanks), a section header ([[name]] and blanks), a
    key/value line (a key, [=], a value, both with some byte that is not a
    blank), or malformed. *)

Inductive line_kind := Blank | Comment | SectionHeader | KeyValue | Malformed.

Definition is_nil {A : Type} (l : list A) : bool :=
  match l with [] => true | _ :: _ => false end.

Fixpoint spec_lines (l : list ascii) : list (list ascii) :=
  match l with
  | [] => [[]]
  | c :: t =>
      if is_eol c then
        [] :: (if Ascii.eqb c CR then
                 match t with
                 | c' :: t' => if Ascii.eqb c' LF then spec_lines t'
                               else spec_lines t
                 | [] => spec_lines t
                 end
               else spec_lines t)
      else
        match spec_lines t with
        | [] => [[c]]
        | cur :: rest => (c :: cur) :: rest
        end
  end.

(** The number, from 1, of the line of the text [b] that holds the byte at
    offset [o]: the lines of the text before that byte, the one it stands on
    included. *)
Definition spec_line_of (b : buffer) (o : nat) : nat :=
  List.length (spec_lines (firstn o b)).

Definition spec_classify (l : list ascii) : line_kind :=
  match lstrip l with
  | [] => Blank
  | c :: rest =>
      if Ascii.eqb c SEMI then Comment
      else if Ascii.eqb c LBRACKET then
        match drop_while not_rbracket rest with
        | [] => Malformed
        | _ :: after => if forallb is_blank after then SectionHeader else Malformed
        end
      else
        match drop_while not_equals (c :: rest) with
        | [] => Malformed
        | _ :: v =>
            if is_nil (trim (take_while not_equals (c :: rest)))
               || is_nil (trim v)
            then Malformed else KeyValue
        end
  end.

Definition is_key_value (k : line_kind) : bool :=
  match k with KeyValue => true | _ => false end.

Definition is_malformed (k : line_kind) : bool :=
  match k with Malformed => true | _ => false end.

(** The number of syntactically valid [key = value] lines of a buffer. *)
Definition spec_kv_line_count (b : buffer) : nat :=
  List.length (filter (fun l => is_key_value (spec_classify l)) (spec_lines b)).

(** A line of a well-formed file: no line terminator inside, not malformed. *)
Definition well_formed_line (l : list ascii) : bool :=
  forallb not_eol l && negb (is_malformed (spec_classify l)).

(** The file whose lines are [ls], each ended by [\r\n]. *)
Definition crlf_file (ls : list (list ascii)) : buffer :=
  List.concat (map (fun l => l ++ [CR; LF]) ls).

(** The shape of a well-formed line past its leading blanks, by kind. *)
Inductive body_shape : list ascii -> line_kind -> Prop :=
| shape_blank : body_shape [] Blank
| shape_comment text :
    forallb not_eol text = true ->
    body_shape (SEMI :: text) Comment
| shape_header name after :
    forallb not_rbracket name = true ->
    forallb is_blank after = true ->
    body_shape (LBRACKET :: name ++ RBRACKET :: after) SectionHeader
| shape_key_value c r pre v :
    c :: r = pre ++ EQUALS :: v ->
    is_kv_start c = true ->
    forallb key_byte pre = true ->
    forallb not_eol v = true ->
    trim pre <> [] -> trim v <> [] ->
    body_shape (c :: r) KeyValue.

(** The file whose lines are [ls], each ended by [\r\n], followed by a last
    line [last] without a terminator. *)
Definition crlf_text (ls : list (list ascii)) (last : list ascii) : buffer :=
  crlf_file ls ++ last.

(** [reaches s rest n]: from [s] the loop gets, without error, to a state
    whose suffix is [rest], having pushed [n] records. *)
Definition reaches (s : ini_parser) (rest : list ascii) (n : nat) : Prop :=
  exists s1, steps s s1 /\ suffix s1 = rest /\
             List.length (properties s1) = List.length (properties s) + n.

(** ** Runs with their effect *)

(** [lands s s1 n k sec props]: the loop goes from [s] to [s1] without
    error, [n] bytes and [k] counted lines further, and ends with section
    [sec] and properties [props]. *)
Definition lands (s s1 : ini_parser) (n k : nat) (sec : slice)
    (props : list ini_kv) : Prop :=
  steps s s1 /\ buf s1 = buf s /\ cursor s1 = cursor s + n /\
  line s1 = line s + k /\ section s1 = sec /\ properties s1 = props.

(** ** The records of a text, in the words of the specification *)

(** The name of a header line: what stands between the [[] and the first
    []]. *)
Definition spec_section_name (l : list ascii) : list ascii :=
  take_while not_rbracket (tl (lstrip l)).

(** Key and value of a key/value line: the text before the first [=] and the
    text after it, without the blanks around them. *)
Definition spec_key (l : list ascii) : list ascii :=
  trim (take_while not_equals l).

Definition spec_value (l : list ascii) : list ascii :=
  trim (tl (drop_while not_equals l)).

(** The records of the lines [ls], the current section being [sec]: a header
    line sets the section, a key/value line gives a record, the other lines
    give nothing. *)
Fixpoint spec_records (sec : list ascii) (ls : list (list ascii))
    : list (list ascii * list ascii * list ascii) :=
  match ls with
  | [] => []
  | l :: ls' =>
      match spec_classify l with
      | KeyValue => (sec, spec_key l, spec_value l) :: spec_records sec ls'
      | SectionHeader => spec_records (spec_section_name l) ls'
      | _ => spec_records sec ls'
      end
  end.

(** What the run from [s] to [s1] over the line [l] has done. *)
Definition line_effect (s s1 : ini_parser) (l : list ascii) : Prop :=
  match spec_classify l with
  | KeyValue =>
      section s1 = section s /\
      exists kv,
        properties s1 = properties s ++ [kv] /\
        kv_section kv = section s /\
        slice_bytes (buf s) (key kv) = spec_key l /\
        slice_bytes (buf s) (value kv) = spec_value l
  | SectionHeader =>
      properties s1 = properties s /\
      slice_bytes (buf s) (section s1) = spec_section_name l
  | _ => properties s1 = properties s /\ section s1 = section s
  end.

(** The section the parser is in after the line [l]. *)
Definition section_after (sec : list ascii) (l : list ascii) : list ascii :=
  match spec_classify l with
  | SectionHeader => spec_section_name l
  | _ => sec
  end.

(** The lines of [ls] whose terminator the parser counts: all but the
    key/value lines. *)
Definition counted_lines (ls : list (list ascii)) : nat :=
  List.length (filter (fun l => negb (is_key_value (spec_classify l))) ls).

(** A byte of a text without content: a blank or a line terminator. *)
Definition is_space (c : ascii) : bool := is_blank c || is_eol c.

(** ** The layout of the records in the buffer *)

Definition null_slice : slice := {| data := None; length := 0 |}.

(** A section slice is the null slice or lies, with the []] that closes it,
    below [hi], past the [[] at the start of the buffer or later. *)
Definition section_before (sec : slice) (hi : nat) : Prop :=
  sec = null_slice \/
  exists o, data sec = Some o /\ 0 < o /\ o + length sec < hi.

(** The slices of a record: a key and a value that are not empty, the key
    before the value with a byte between them, the value within the buffer,
    the section before the key. *)
Definition record_layout (b : buffer) (kv : ini_kv) : Prop :=
  exists ko vo,
    data (key kv) = Some ko /\ data (value kv) = Some vo /\
    0 < length (key kv) /\ ko + length (key kv) < vo /\
    0 < length (value kv) /\ vo + length (value kv) <= List.length b /\
    section_before (kv_section kv) ko.

(** The records [l] lie one after the other between [lo] and [hi]: each key
    starts at or after the end of the value before it. *)
Fixpoint in_file_order (lo : nat) (l : list ini_kv) (hi : nat) : Prop :=
  match l with
  | [] => lo <= hi
  | kv :: t =>
      exists ko vo,
        data (key kv) = Some ko /\ data (value kv) = Some vo /\
        lo <= ko /\ ko <= vo /\
        in_file_order (vo + length (value kv)) t hi
  end.

(** The invariant of a run. *)
Definition well_laid (s : ini_parser) : Prop :=
  Forall (record_layout (buf s)) (properties s) /\
  in_file_order 0 (properties s)
    (Nat.min (cursor s) (List.length (buf s))) /\
  section_before (section s) (Nat.min (cursor s) (List.length (buf s))).

(** * Properties *)

(** ** Scanning lists *)

Section ScanFacts.
Variable A : Type.
Variable p : A -> bool.

Lemma take_drop_while (l : list A) : take_while p l ++ drop_while p l = l.
Proof.
  induction l as [|x t IH]; simpl; [reflexivity|].
  destruct (p x); simpl; [now rewrite IH | reflexivity].
Qed.

Lemma take_while_forallb (l : list A) : forallb p (take_while p l) = true.
Proof.
  induction l as [|x t IH]; simpl; [reflexivity|].
  destruct (p x) eqn:E; simpl; [now rewrite E | reflexivity].
Qed.

Lemma drop_while_head (l : list A) x t : drop_while p l = x :: t -> p x = false.
Proof.
  induction l as [|y u IH]; simpl; [discriminate|].
  destruct (p y) eqn:E; [exact IH|].
  intros H; injection H as -> _; exact E.
Qed.

Lemma take_while_stop (l : list A) x t :
  forallb p l = true -> p x = false -> take_while p (l ++ x :: t) = l.
Proof.
  induction l as [|y u IH]; simpl; intros Hl Hx.
  - now rewrite Hx.
  - apply andb_true_iff in Hl as [Hy Hu]. rewrite Hy. now rewrite IH.
Qed.

Lemma drop_while_stop (l : list A) x t :
  forallb p l = true -> p x = false -> drop_while p (l ++ x :: t) = x :: t.
Proof.
  induction l as [|y u IH]; simpl; intros Hl Hx.
  - now rewrite Hx.
  - apply andb_true_iff in Hl as [Hy Hu]. rewrite Hy. now apply IH.
Qed.

Lemma take_while_all (l : list A) : forallb p l = true -> take_while p l = l.
Proof.
  induction l as [|y u IH]; simpl; intros Hl; [reflexivity|].
  apply andb_true_iff in Hl as [Hy Hu]. rewrite Hy. now rewrite IH.
Qed.

Lemma drop_while_all (l : list A) : forallb p l = true -> drop_while p l = [].
Proof.
  induction l as [|y u IH]; simpl; intros Hl; [reflexivity|].
  apply andb_true_iff in Hl as [Hy Hu]. rewrite Hy. now apply IH.
Qed.

Lemma drop_while_snoc (l : list A) x :
  drop_while p (l ++ [x]) =
  match drop_while p l with
  | [] => if p x then [] else [x]
  | r => r ++ [x]
  end.
Proof.
  induction l as [|y u IH]; simpl; [reflexivity|].
  destruct (p y); [exact IH | reflexivity].
Qed.

End ScanFacts.

Arguments take_drop_while {A} p l.
Arguments take_while_forallb {A} p l.
Arguments drop_while_head {A} p l x t.
Arguments take_while_stop {A} p l x t.
Arguments drop_while_stop {A} p l x t.
Arguments take_while_all {A} p l.
Arguments drop_while_all {A} p l.
Arguments drop_while_snoc {A} p l x.

(** ** The parser state *)

Lemma set_cursor_same ini : set_cursor (cursor ini) ini = ini.
Proof. now destruct ini. Qed.

Lemma set_cursor_twice m n ini : set_cursor m (set_cursor n ini) = set_cursor m ini.
Proof. reflexivity. Qed.

Lemma in_bounds_true ini : in_bounds ini = true <-> cursor ini < List.length (buf ini).
Proof. unfold in_bounds. apply Nat.ltb_lt. Qed.

Lemma in_bounds_false ini : in_bounds ini = false <-> List.length (buf ini) <= cursor ini.
Proof. unfold in_bounds. apply Nat.ltb_ge. Qed.

Lemma suffix_cons ini :
  in_bounds ini = true ->
  suffix ini = byte_at ini (cursor ini) :: suffix (incr_cursor ini).
Proof.
  rewrite in_bounds_true. unfold suffix, byte_at, incr_cursor. simpl.
  generalize (cursor ini) (buf ini). intros n l. revert n.
  induction l as [|x t IH]; intros [|n] H; simpl in *; try lia.
  - reflexivity.
  - apply IH. lia.
Qed.

Lemma suffix_nil ini : in_bounds ini = false -> suffix ini = [].
Proof.
  rewrite in_bounds_false. unfold suffix. apply skipn_all2.
Qed.

Lemma suffix_length ini : List.length (suffix ini) = remaining ini.
Proof. unfold suffix, remaining. apply length_skipn. Qed.

Lemma suffix_set_cursor n ini : suffix (set_cursor n ini) = skipn n (buf ini).
Proof. reflexivity. Qed.

Lemma remaining_incr ini fuel :
  in_bounds ini = true -> remaining ini <= S fuel ->
  remaining (incr_cursor ini) <= fuel.
Proof.
  rewrite in_bounds_true. unfold remaining. simpl. lia.
Qed.

Lemma remaining_0 ini : remaining ini <= 0 -> in_bounds ini = false.
Proof. rewrite in_bounds_false. unfold remaining. lia. Qed.

(** ** The scanning loops, as scans of the suffix

    Each lemma holds for every fuel that is at least the number of bytes
    left, so the loops never stop for lack of fuel. *)

Ltac loop_induction fuel ini IH Hf E :=
  revert ini; induction fuel as [|fuel IH]; intros ini Hf; simpl;
  [ pose proof (remaining_0 ini Hf) as E; rewrite (suffix_nil ini E); simpl
  | destruct (in_bounds ini) eqn:E;
    [ rewrite (suffix_cons ini E); simpl;
      pose proof (remaining_incr ini fuel E Hf)
    | rewrite (suffix_nil ini E); simpl ] ].

Ltac finish_cursor :=
  simpl; unfold incr_cursor; simpl;
  repeat rewrite set_cursor_twice;
  repeat rewrite Nat.add_0_r;
  try rewrite set_cursor_same;
  try reflexivity;
  repeat (f_equal; try lia).

Lemma discard_whitespace_loop_spec fuel ini :
  remaining ini <= fuel ->
  discard_whitespace_loop fuel ini =
  set_cursor (cursor ini + List.length (take_while is_blank (suffix ini))) ini.
Proof.
  loop_induction fuel ini IH Hf E; try solve [finish_cursor].
  destruct (is_blank _); [|solve [finish_cursor]].
  rewrite IH by assumption. finish_cursor.
Qed.

Lemma discard_whitespace_spec ini :
  discard_whitespace ini =
  set_cursor (cursor ini + List.length (take_while is_blank (suffix ini))) ini.
Proof. apply discard_whitespace_loop_spec. apply Nat.le_refl. Qed.

Lemma discard_comment_loop_spec fuel ini :
  remaining ini <= fuel ->
  discard_comment_loop fuel ini =
  set_cursor (cursor ini + List.length (take_while not_eol (suffix ini))) ini.
Proof.
  loop_induction fuel ini IH Hf E; try solve [finish_cursor].
  set (c := byte_at ini (cursor ini)).
  change (not_eol c) with (negb (is_eol c)).
  destruct (is_eol c); simpl; [solve [finish_cursor]|].
  rewrite IH by assumption. finish_cursor.
Qed.

Lemma discard_comment_spec ini :
  discard_comment ini =
  set_cursor (cursor ini + List.length (take_while not_eol (suffix ini))) ini.
Proof. apply discard_comment_loop_spec. apply Nat.le_refl. Qed.

Lemma parse_section_header_loop_spec fuel sb ini :
  remaining ini <= fuel ->
  parse_section_header_loop fuel sb ini =
  let n := List.length (take_while not_rbracket (suffix ini)) in
  match drop_while not_rbracket (suffix ini) with
  | [] => Err UnterminatedSection (line ini) (set_cursor (cursor ini + n) ini)
  | _ :: _ =>
      Ok (set_section {| data := Some sb; length := cursor ini + n - sb |}
            (set_cursor (cursor ini + n) ini))
  end.
Proof.
  loop_induction fuel ini IH Hf E; try solve [finish_cursor].
  set (c := byte_at ini (cursor ini)).
  change (not_rbracket c) with (negb (Ascii.eqb c RBRACKET)).
  destruct (Ascii.eqb c RBRACKET); simpl.
  - finish_cursor.
  - rewrite IH by assumption. simpl.
    destruct (drop_while _ _); finish_cursor.
Qed.

Lemma parse_kv_key_loop_spec fuel ini :
  remaining ini <= fuel -> forall ke,
  parse_kv_key_loop fuel ke ini =
  let seg := take_while key_byte (suffix ini) in
  let ini' := set_cursor (cursor ini + List.length seg) ini in
  match drop_while key_byte (suffix ini) with
  | [] => KeyExit false (track_end (cursor ini) ke seg) ini'
  | x :: _ =>
      if Ascii.eqb x EQUALS
      then KeyExit true (track_end (cursor ini) ke seg) (incr_cursor ini')
      else KeyEOL ini'
  end.
Proof.
  loop_induction fuel ini IH Hf E; intros ke; try solve [finish_cursor].
  set (c := byte_at ini (cursor ini)).
  change (key_byte c) with (negb (Ascii.eqb c EQUALS) && negb (is_eol c)).
  destruct (Ascii.eqb c EQUALS) eqn:Eeq; simpl.
  - rewrite Eeq. finish_cursor.
  - destruct (is_blank c) eqn:Eb.
    + assert (Ee : is_eol c = false).
      { unfold is_blank, is_eol in *.
        apply orb_true_iff in Eb as [Eb|Eb]; apply Ascii.eqb_eq in Eb;
          rewrite Eb; reflexivity. }
      rewrite Ee. simpl. rewrite Eb.
      rewrite IH by assumption. simpl.
      destruct (drop_while _ _) as [|x ?]; [|destruct (Ascii.eqb x EQUALS)];
        finish_cursor.
    + destruct (is_eol c) eqn:Ee; simpl.
      * rewrite Eeq. finish_cursor.
      * rewrite Eb. rewrite IH by assumption. simpl.
        destruct (drop_while _ _) as [|x ?]; [|destruct (Ascii.eqb x EQUALS)];
          finish_cursor.
Qed.

Lemma parse_kv_value_loop_spec fuel ini :
  remaining ini <= fuel -> forall ve,
  parse_kv_value_loop fuel ve ini =
  let seg := take_while not_eol (suffix ini) in
  (track_end (cursor ini) ve seg,
   set_cursor (cursor ini + List.length seg +
               match drop_while not_eol (suffix ini) with [] => 0 | _ :: _ => 1 end)
     ini).
Proof.
  loop_induction fuel ini IH Hf E; intros ve; try solve [finish_cursor].
  set (c := byte_at ini (cursor ini)).
  change (not_eol c) with (negb (is_eol c)).
  destruct (is_eol c) eqn:Ee; simpl.
  - finish_cursor.
  - destruct (is_blank c) eqn:Eb; rewrite IH by assumption; finish_cursor.
Qed.

(** ** More on scans *)

Section ScanApp.
Variable A : Type.
Variable p : A -> bool.

Lemma take_while_app_stop (l : list A) x t :
  p x = false -> take_while p (l ++ x :: t) = take_while p l.
Proof.
  intros Hx. induction l as [|y u IH]; simpl.
  - now rewrite Hx.
  - destruct (p y); [now rewrite IH | reflexivity].
Qed.

Lemma drop_while_app_stop (l : list A) x t :
  p x = false -> drop_while p (l ++ x :: t) = drop_while p l ++ x :: t.
Proof.
  intros Hx. induction l as [|y u IH]; simpl.
  - now rewrite Hx.
  - destruct (p y); [exact IH | reflexivity].
Qed.

Lemma take_drop_while_length (l : list A) :
  List.length (take_while p l) + List.length (drop_while p l) = List.length l.
Proof. rewrite <- length_app. now rewrite (take_drop_while p l). Qed.

Lemma forallb_drop_while (q : A -> bool) (l : list A) :
  forallb q l = true -> forallb q (drop_while p l) = true.
Proof.
  induction l as [|y u IH]; simpl; [reflexivity|].
  intros H. destruct (p y); [|exact H].
  apply andb_true_iff in H as [_ H]. now apply IH.
Qed.

End ScanApp.

Arguments take_while_app_stop {A} p l x t.
Arguments drop_while_app_stop {A} p l x t.
Arguments take_drop_while_length {A} p l.
Arguments forallb_drop_while {A} p q l.

Lemma suffix_app s l1 l2 :
  suffix s = l1 ++ l2 ->
  suffix (set_cursor (cursor s + List.length l1) s) = l2.
Proof.
  unfold suffix. simpl. intros H.
  rewrite Nat.add_comm, <- skipn_skipn, H.
  rewrite skipn_app, skipn_all, Nat.sub_diag. reflexivity.
Qed.

Lemma suffix_take_while p s :
  suffix (set_cursor (cursor s + List.length (take_while p (suffix s))) s)
  = drop_while p (suffix s).
Proof. apply suffix_app. symmetry. apply take_drop_while. Qed.

Lemma blank_not_eol c : is_blank c = true -> is_eol c = false.
Proof.
  unfold is_blank, is_eol. intros H.
  apply orb_true_iff in H as [H|H]; apply Ascii.eqb_eq in H; now rewrite H.
Qed.

Lemma blank_not_equals c : is_blank c = true -> Ascii.eqb c EQUALS = false.
Proof.
  unfold is_blank. intros H.
  apply orb_true_iff in H as [H|H]; apply Ascii.eqb_eq in H; now rewrite H.
Qed.

Lemma blank_key_byte c : is_blank c = true -> key_byte c = true.
Proof.
  intros H. unfold key_byte, not_equals, not_eol.
  now rewrite (blank_not_equals c H), (blank_not_eol c H).
Qed.

Lemma eol_not_blank c : is_eol c = true -> is_blank c = false.
Proof.
  intros H. destruct (is_blank c) eqn:E; [|reflexivity].
  apply blank_not_eol in E. congruence.
Qed.

Lemma key_byte_equals : key_byte EQUALS = false.
Proof. reflexivity. Qed.

(** ** Section headers *)

Lemma parse_section_header_spec ini :
  parse_section_header ini =
  let rest := skipn (cursor ini + 1) (buf ini) in
  let n := List.length (take_while not_rbracket rest) in
  match drop_while not_rbracket rest with
  | [] => Err UnterminatedSection (line ini) (set_cursor (cursor ini + 1 + n) ini)
  | _ :: _ =>
      Ok (set_section {| data := Some (cursor ini + 1); length := n |}
            (set_cursor (cursor ini + 1 + n) ini))
  end.
Proof.
  unfold parse_section_header.
  rewrite parse_section_header_loop_spec by apply Nat.le_refl.
  unfold incr_cursor. rewrite suffix_set_cursor. simpl.
  destruct (drop_while _ _); rewrite ?set_cursor_twice; repeat f_equal; lia.
Qed.

(** ** Key/value lines *)

Lemma suffix_incr s x t : suffix s = x :: t -> suffix (incr_cursor s) = t.
Proof. intros H. apply (suffix_app s [x] t H). Qed.

(** The value phase, from any state. *)
Lemma parse_kv_value_spec s :
  parse_kv_value s =
  let vb := cursor s + List.length (take_while is_blank (suffix s)) in
  let vseg := take_while not_eol (lstrip (suffix s)) in
  (vb, track_end vb None vseg,
   set_cursor (vb + List.length vseg +
               match drop_while not_eol (lstrip (suffix s)) with
               | [] => 0
               | _ :: _ => 1
               end) s).
Proof.
  unfold parse_kv_value. rewrite discard_whitespace_spec.
  rewrite parse_kv_value_loop_spec by apply Nat.le_refl.
  cbv zeta. rewrite suffix_take_while. reflexivity.
Qed.

(** [parse_kv] on a suffix in which [=] comes before any line terminator. *)
Lemma parse_kv_at_equals ini pre r2 :
  suffix ini = pre ++ EQUALS :: r2 ->
  forallb key_byte pre = true ->
  let kb := cursor ini + List.length (take_while is_blank pre) in
  let vb := cursor ini + List.length pre + 1
            + List.length (take_while is_blank r2) in
  let vseg := take_while not_eol (lstrip r2) in
  let fin :=
    set_cursor (vb + List.length vseg +
                match drop_while not_eol (lstrip r2) with
                | [] => 0
                | _ :: _ => 1
                end) ini in
  parse_kv ini =
  match track_end vb None vseg with
  | None => Err MissingValue (line ini) fin
  | Some value_end =>
      match track_end kb None (lstrip pre) with
      | None => Abort
      | Some key_end =>
          Ok (push_back
                {| kv_section := section ini;
                   key := {| data := Some kb; length := key_end - kb |};
                   value := {| data := Some vb; length := value_end - vb |} |}
                fin)
      end
  end.
Proof.
  intros Hs Hpre kb vb vseg fin.
  unfold parse_kv, parse_kv_key. rewrite discard_whitespace_spec, Hs.
  rewrite take_while_app_stop by reflexivity. fold kb.
  set (ini1 := set_cursor kb ini).
  assert (H1 : suffix ini1 = lstrip pre ++ EQUALS :: r2).
  { apply suffix_app. rewrite Hs, app_assoc. f_equal. symmetry.
    apply take_drop_while. }
  assert (Hl : forallb key_byte (lstrip pre) = true)
    by now apply forallb_drop_while.
  rewrite parse_kv_key_loop_spec by apply Nat.le_refl.
  cbv zeta. rewrite H1.
  rewrite (take_while_stop key_byte _ _ _ Hl key_byte_equals).
  rewrite (drop_while_stop key_byte _ _ _ Hl key_byte_equals).
  change (Ascii.eqb EQUALS EQUALS) with true. cbv iota.
  set (ini2 := incr_cursor _).
  assert (Hc2 : cursor ini2 = cursor ini + List.length pre + 1).
  { unfold ini2, ini1, kb. simpl.
    pose proof (take_drop_while_length is_blank pre). unfold lstrip. lia. }
  assert (H2 : suffix ini2 = r2).
  { unfold ini2. eapply suffix_incr. apply suffix_app. exact H1. }
  rewrite parse_kv_value_spec. cbv zeta. rewrite H2, Hc2.
  fold vb. fold vseg.
  assert (Hfin : forall n, set_cursor n ini2 = set_cursor n ini) by reflexivity.
  rewrite Hfin. fold fin.
  destruct (track_end vb None vseg) as [ve|]; [|reflexivity].
  change (cursor ini1) with kb.
  destruct (track_end kb None (lstrip pre)); reflexivity.
Qed.

(** [parse_kv] on a suffix in which a line terminator comes before any [=]. *)
Lemma parse_kv_at_eol ini pre x r :
  suffix ini = pre ++ x :: r ->
  forallb key_byte pre = true -> is_eol x = true ->
  parse_kv ini =
  Err MissingEquals (line ini) (set_cursor (cursor ini + List.length pre) ini).
Proof.
  intros Hs Hpre Hx.
  assert (Hxb : is_blank x = false) by now apply eol_not_blank.
  assert (Hxk : key_byte x = false).
  { unfold key_byte, not_eol. rewrite Hx. apply andb_false_r. }
  assert (Hxe : Ascii.eqb x EQUALS = false).
  { destruct (Ascii.eqb x EQUALS) eqn:E; [|reflexivity].
    apply Ascii.eqb_eq in E. subst x. discriminate. }
  unfold parse_kv, parse_kv_key. rewrite discard_whitespace_spec, Hs.
  rewrite take_while_app_stop by assumption.
  set (kb := cursor ini + _).
  set (ini1 := set_cursor kb ini).
  assert (H1 : suffix ini1 = lstrip pre ++ x :: r).
  { apply suffix_app. rewrite Hs, app_assoc. f_equal. symmetry.
    apply take_drop_while. }
  assert (Hl : forallb key_byte (lstrip pre) = true)
    by now apply forallb_drop_while.
  rewrite parse_kv_key_loop_spec by apply Nat.le_refl.
  cbv zeta. rewrite H1.
  rewrite (take_while_stop key_byte _ _ _ Hl Hxk).
  rewrite (drop_while_stop key_byte _ _ _ Hl Hxk).
  rewrite Hxe. simpl. f_equal. unfold ini1. rewrite set_cursor_twice. f_equal.
  unfold kb. pose proof (take_drop_while_length is_blank pre).
  unfold lstrip. lia.
Qed.

(** [parse_kv] on a suffix with neither [=] nor a line terminator. *)
Lemma parse_kv_at_eof ini :
  forallb key_byte (suffix ini) = true ->
  parse_kv ini =
  Err MissingEqualsEOF (line ini) (set_cursor (List.length (buf ini) + (cursor ini - List.length (buf ini))) ini).
Proof.
  intros Hpre.
  unfold parse_kv, parse_kv_key. rewrite discard_whitespace_spec.
  set (kb := cursor ini + _).
  set (ini1 := set_cursor kb ini).
  assert (H1 : suffix ini1 = lstrip (suffix ini)) by apply suffix_take_while.
  assert (Hl : forallb key_byte (lstrip (suffix ini)) = true)
    by now apply forallb_drop_while.
  rewrite parse_kv_key_loop_spec by apply Nat.le_refl.
  cbv zeta. rewrite H1.
  rewrite (take_while_all key_byte _ Hl), (drop_while_all key_byte _ Hl).
  simpl. f_equal. unfold ini1. rewrite set_cursor_twice. f_equal.
  unfold kb. pose proof (take_drop_while_length is_blank (suffix ini)).
  rewrite suffix_length in H. unfold lstrip, remaining in *. lia.
Qed.

(** Every suffix has one of the three shapes. *)
Lemma suffix_shape (l : list ascii) :
  (exists pre r2, l = pre ++ EQUALS :: r2 /\ forallb key_byte pre = true) \/
  (exists pre x r, l = pre ++ x :: r /\ forallb key_byte pre = true
                   /\ is_eol x = true) \/
  forallb key_byte l = true.
Proof.
  pose proof (take_drop_while key_byte l) as Hl.
  pose proof (take_while_forallb key_byte l) as Hp.
  destruct (drop_while key_byte l) as [|x r] eqn:Hd.
  - right; right. rewrite app_nil_r in Hl. now rewrite <- Hl.
  - pose proof (drop_while_head key_byte l x r Hd) as Hx.
    destruct (Ascii.eqb x EQUALS) eqn:E.
    + left. apply Ascii.eqb_eq in E. subst x.
      exists (take_while key_byte l), r. now split.
    + right; left. exists (take_while key_byte l), x, r.
      repeat split; auto.
      unfold key_byte, not_equals, not_eol in Hx. rewrite E in Hx. simpl in Hx.
      now apply negb_false_iff in Hx.
Qed.

(** ** Stripping and the tentative end pointer *)

Lemma rstrip_cons x t :
  rstrip (x :: t) =
  match rstrip t with
  | [] => if is_blank x then [] else [x]
  | r => x :: r
  end.
Proof.
  unfold rstrip, lstrip. simpl rev. rewrite drop_while_snoc.
  destruct (drop_while is_blank (rev t)) as [|y u] eqn:E.
  - simpl. destruct (is_blank x); reflexivity.
  - rewrite rev_app_distr. change (rev [x]) with [x].
    change ([x] ++ rev (y :: u)) with (x :: rev (y :: u)).
    destruct (rev (y :: u)) eqn:R; [|reflexivity].
    apply (f_equal (@List.length ascii)) in R.
    rewrite length_rev in R. discriminate.
Qed.

Lemma track_end_rstrip l : forall c e,
  track_end c e l =
  match rstrip l with
  | [] => e
  | r => Some (c + List.length r)
  end.
Proof.
  induction l as [|x t IH]; intros c e; [reflexivity|].
  simpl track_end. rewrite IH, rstrip_cons.
  destruct (rstrip t) as [|y u].
  - destruct (is_blank x); [reflexivity|]. simpl. f_equal.
  - simpl. f_equal. lia.
Qed.

(** [rstrip l] is [l] without a final run of blanks. *)
Lemma rstrip_prefix l :
  exists bl, l = rstrip l ++ bl /\ forallb is_blank bl = true.
Proof.
  induction l as [|x t (bl & Ht & Hbl)].
  - exists []. now split.
  - rewrite rstrip_cons. destruct (rstrip t) as [|y u].
    + simpl in Ht. subst bl. destruct (is_blank x) eqn:E.
      * exists (x :: t). split; [reflexivity|]. simpl. now rewrite E.
      * exists t. now split.
    + exists bl. split; [|assumption]. simpl. f_equal. exact Ht.
Qed.

Lemma rstrip_blank l : forallb is_blank l = true -> rstrip l = [].
Proof.
  induction l as [|x t IH]; intros H; [reflexivity|].
  simpl in H. apply andb_true_iff in H as [Hx Ht].
  rewrite rstrip_cons, (IH Ht), Hx. reflexivity.
Qed.

Lemma rstrip_nonblank l : forallb is_blank l = false -> rstrip l <> [].
Proof.
  induction l as [|x t IH]; intros H; [discriminate|].
  rewrite rstrip_cons. simpl in H.
  destruct (rstrip t) as [|y u] eqn:E; [|discriminate].
  destruct (is_blank x); [|discriminate].
  simpl in H. exfalso. now apply IH.
Qed.

Lemma lstrip_blank l : forallb is_blank l = true -> lstrip l = [].
Proof. apply drop_while_all. Qed.

Lemma lstrip_take_while_not_eol l :
  lstrip (take_while not_eol l) = take_while not_eol (lstrip l).
Proof.
  unfold lstrip. induction l as [|x t IH]; [reflexivity|].
  simpl. destruct (is_blank x) eqn:Eb.
  - unfold not_eol at 1. rewrite (blank_not_eol x Eb). simpl.
    now rewrite Eb.
  - destruct (not_eol x) eqn:Ee; simpl; rewrite ?Eb, ?Ee; reflexivity.
Qed.

Lemma forallb_lstrip l : forallb is_blank (lstrip l) = forallb is_blank l.
Proof.
  unfold lstrip. induction l as [|x t IH]; [reflexivity|].
  simpl. destruct (is_blank x) eqn:E; simpl; [exact IH | now rewrite E].
Qed.

(** The slice that starts where [l] starts and is as long as [rstrip l]. *)
Lemma firstn_rstrip l rest :
  firstn (List.length (rstrip l)) (l ++ rest) = rstrip l.
Proof.
  destruct (rstrip_prefix l) as (bl & Hl & _).
  rewrite Hl at 2. rewrite <- app_assoc.
  rewrite firstn_app, Nat.sub_diag, firstn_all. simpl. apply app_nil_r.
Qed.

(** [trim l] is [l] without the blanks at its two ends, and has no blank at
    either end. *)
Lemma trim_decompose l :
  exists b1 b2,
    l = b1 ++ trim l ++ b2 /\
    forallb is_blank b1 = true /\ forallb is_blank b2 = true.
Proof.
  destruct (rstrip_prefix (lstrip l)) as (b2 & H2 & Hb2).
  exists (take_while is_blank l), b2.
  split; [|split; [apply take_while_forallb | exact Hb2]].
  unfold trim. rewrite <- H2. symmetry. apply take_drop_while.
Qed.

Lemma trim_first l x t : trim l = x :: t -> is_blank x = false.
Proof.
  intros H. destruct (rstrip_prefix (lstrip l)) as (b2 & H2 & _).
  fold (trim l) in H2. rewrite H in H2. simpl in H2.
  eapply drop_while_head. exact H2.
Qed.

Lemma trim_last l t x : trim l = t ++ [x] -> is_blank x = false.
Proof.
  unfold trim, rstrip. intros H. apply (f_equal (@rev ascii)) in H.
  rewrite rev_involutive, rev_app_distr in H. simpl in H.
  eapply drop_while_head. exact H.
Qed.

Lemma take_while_not_eol_lstrip l :
  take_while not_eol l = take_while is_blank l ++ take_while not_eol (lstrip l).
Proof.
  unfold lstrip. induction l as [|x t IH]; [reflexivity|].
  simpl. destruct (is_blank x) eqn:Eb.
  - unfold not_eol at 1. rewrite (blank_not_eol x Eb). simpl. now rewrite IH.
  - simpl. reflexivity.
Qed.

Lemma drop_while_not_eol_lstrip l :
  drop_while not_eol (lstrip l) = drop_while not_eol l.
Proof.
  unfold lstrip. induction l as [|x t IH]; [reflexivity|].
  simpl. destruct (is_blank x) eqn:Eb.
  - unfold not_eol at 2. rewrite (blank_not_eol x Eb). simpl. exact IH.
  - reflexivity.
Qed.

(** [parse_kv] on a line with an [=]: the three outcomes. *)
Lemma parse_kv_spec ini pre r2 :
  suffix ini = pre ++ EQUALS :: r2 ->
  forallb key_byte pre = true ->
  parse_kv ini =
  match trim (take_while not_eol r2) with
  | [] => Err MissingValue (line ini) (set_cursor (kv_end ini pre r2) ini)
  | _ :: _ =>
      match trim pre with
      | [] => Abort
      | _ :: _ =>
          Ok (push_back (kv_record ini pre r2)
                (set_cursor (kv_end ini pre r2) ini))
      end
  end.
Proof.
  intros Hs Hpre. rewrite (parse_kv_at_equals ini pre r2 Hs Hpre). cbv zeta.
  rewrite !track_end_rstrip.
  assert (Hend :
    cursor ini + List.length pre + 1 + List.length (take_while is_blank r2)
    + List.length (take_while not_eol (lstrip r2))
    + match drop_while not_eol (lstrip r2) with [] => 0 | _ :: _ => 1 end
    = kv_end ini pre r2).
  { unfold kv_end. rewrite drop_while_not_eol_lstrip.
    rewrite (take_while_not_eol_lstrip r2), length_app. lia. }
  rewrite Hend. unfold trim. rewrite lstrip_take_while_not_eol.
  destruct (rstrip (take_while not_eol (lstrip r2))) as [|v vs] eqn:Ev;
    [reflexivity|].
  destruct (rstrip (lstrip pre)) as [|k ks] eqn:Ek; [reflexivity|].
  unfold kv_record, trim. rewrite lstrip_take_while_not_eol, Ev, Ek.
  repeat f_equal; lia.
Qed.

Lemma kv_record_key_bytes ini pre r2 :
  suffix ini = pre ++ EQUALS :: r2 ->
  slice_bytes (buf ini) (key (kv_record ini pre r2)) = trim pre.
Proof.
  intros Hs. unfold slice_bytes, kv_record. simpl.
  change (skipn (cursor ini + List.length (take_while is_blank pre)) (buf ini))
    with (suffix (set_cursor (cursor ini + List.length (take_while is_blank pre)) ini)).
  rewrite (suffix_app ini (take_while is_blank pre) (lstrip pre ++ EQUALS :: r2)).
  - apply firstn_rstrip.
  - rewrite Hs, app_assoc. f_equal. symmetry. apply take_drop_while.
Qed.

Lemma kv_record_value_bytes ini pre r2 :
  suffix ini = pre ++ EQUALS :: r2 ->
  slice_bytes (buf ini) (value (kv_record ini pre r2))
  = trim (take_while not_eol r2).
Proof.
  intros Hs. unfold slice_bytes, kv_record. simpl.
  set (n := cursor ini + List.length pre + 1 + List.length (take_while is_blank r2)).
  assert (Hn : n = cursor ini
                   + List.length (pre ++ EQUALS :: take_while is_blank r2)).
  { unfold n. rewrite length_app. simpl. lia. }
  change (skipn n (buf ini)) with (suffix (set_cursor n ini)).
  rewrite Hn.
  rewrite (suffix_app ini (pre ++ EQUALS :: take_while is_blank r2) (lstrip r2)).
  - unfold trim. rewrite lstrip_take_while_not_eol.
    rewrite <- (take_drop_while not_eol (lstrip r2)) at 2.
    apply firstn_rstrip.
  - rewrite Hs, <- app_assoc. simpl. do 2 f_equal. symmetry.
    apply take_drop_while.
Qed.

(** ** Inversion of the sub-routines *)

Lemma parse_kv_Ok_inv ini ini' :
  parse_kv ini = Ok ini' ->
  exists pre r2,
    suffix ini = pre ++ EQUALS :: r2 /\ forallb key_byte pre = true /\
    trim pre <> [] /\ trim (take_while not_eol r2) <> [] /\
    ini' = push_back (kv_record ini pre r2) (set_cursor (kv_end ini pre r2) ini).
Proof.
  intros H.
  destruct (suffix_shape (suffix ini))
    as [(pre & r2 & Hs & Hp) | [(pre & x & r & Hs & Hp & Hx) | Hp]].
  - rewrite (parse_kv_spec ini pre r2 Hs Hp) in H.
    exists pre, r2.
    destruct (trim (take_while not_eol r2)); [discriminate|].
    destruct (trim pre); [discriminate|].
    injection H as <-. repeat split; auto; discriminate.
  - rewrite (parse_kv_at_eol ini pre x r Hs Hp Hx) in H. discriminate.
  - rewrite (parse_kv_at_eof ini Hp) in H. discriminate.
Qed.

Lemma parse_kv_Err_inv ini d ln ini' :
  parse_kv ini = Err d ln ini' ->
  ln = line ini /\ exists n, ini' = set_cursor n ini /\ cursor ini <= n.
Proof.
  intros H.
  destruct (suffix_shape (suffix ini))
    as [(pre & r2 & Hs & Hp) | [(pre & x & r & Hs & Hp & Hx) | Hp]].
  - rewrite (parse_kv_spec ini pre r2 Hs Hp) in H.
    destruct (trim (take_while not_eol r2)).
    + injection H as <- <- <-. split; [reflexivity|].
      eexists; split; [reflexivity|]. unfold kv_end. lia.
    + destruct (trim pre); discriminate.
  - rewrite (parse_kv_at_eol ini pre x r Hs Hp Hx) in H.
    injection H as <- <- <-. split; [reflexivity|].
    eexists; split; [reflexivity|]. lia.
  - rewrite (parse_kv_at_eof ini Hp) in H.
    injection H as <- <- <-. split; [reflexivity|].
    eexists; split; [reflexivity|]. lia.
Qed.

Lemma parse_section_header_Ok_inv ini ini' :
  parse_section_header ini = Ok ini' ->
  exists name tail,
    skipn (cursor ini + 1) (buf ini) = name ++ RBRACKET :: tail /\
    forallb not_rbracket name = true /\
    ini' = set_section {| data := Some (cursor ini + 1);
                          length := List.length name |}
             (set_cursor (cursor ini + 1 + List.length name) ini).
Proof.
  rewrite parse_section_header_spec. cbv zeta.
  set (rest := skipn (cursor ini + 1) (buf ini)).
  pose proof (take_drop_while not_rbracket rest) as Hr.
  pose proof (take_while_forallb not_rbracket rest) as Hp.
  destruct (drop_while not_rbracket rest) as [|x tail] eqn:Hd; [discriminate|].
  intros H. injection H as <-.
  exists (take_while not_rbracket rest), tail. repeat split; auto.
  rewrite <- Hr at 1. do 2 f_equal.
  apply drop_while_head in Hd. unfold not_rbracket in Hd.
  apply negb_false_iff, Ascii.eqb_eq in Hd. exact Hd.
Qed.

Lemma parse_section_header_Err_inv ini d ln ini' :
  parse_section_header ini = Err d ln ini' ->
  d = UnterminatedSection /\ ln = line ini /\
  forallb not_rbracket (skipn (cursor ini + 1) (buf ini)) = true /\
  exists n, ini' = set_cursor n ini.
Proof.
  rewrite parse_section_header_spec. cbv zeta.
  set (rest := skipn (cursor ini + 1) (buf ini)).
  pose proof (take_drop_while not_rbracket rest) as Hr.
  pose proof (take_while_forallb not_rbracket rest) as Hp.
  destruct (drop_while not_rbracket rest) as [|x tail] eqn:Hd; [|discriminate].
  intros H. injection H as <- <- <-. repeat split.
  - rewrite app_nil_r in Hr. now rewrite <- Hr.
  - eexists; reflexivity.
Qed.

(** ** One iteration of the top-level loop *)

Lemma dispatch_kv s :
  is_kv_start (byte_at s (cursor s)) = true -> dispatch s = parse_kv s.
Proof.
  unfold is_kv_start, dispatch. intros H.
  apply andb_true_iff in H as [H H5]. apply andb_true_iff in H as [H H4].
  apply andb_true_iff in H as [H H3]. apply andb_true_iff in H as [H1 H2].
  apply negb_true_iff in H1, H2, H3, H4, H5.
  now rewrite H1, H2, H3, H4, H5.
Qed.

Lemma dispatch_header s :
  byte_at s (cursor s) = LBRACKET -> dispatch s = parse_section_header s.
Proof. unfold dispatch. now intros ->. Qed.

Lemma dispatch_comment s :
  byte_at s (cursor s) = SEMI -> dispatch s = Ok (discard_comment s).
Proof. unfold dispatch. now intros ->. Qed.

Lemma dispatch_blank s :
  is_blank (byte_at s (cursor s)) = true -> dispatch s = Ok s.
Proof.
  unfold dispatch. intros H.
  pose proof (blank_not_eol _ H) as He. unfold is_eol in He.
  apply orb_false_iff in He as [-> ->]. now rewrite H.
Qed.

Lemma dispatch_lf s :
  byte_at s (cursor s) = LF -> dispatch s = Ok (incr_line s).
Proof. unfold dispatch. now intros ->. Qed.

(** The successful iterations: a byte handled in place (with or without a
    line count), a section header, a key/value line. *)
Lemma parse_ini_step_Ok_inv s s' :
  parse_ini_step s = Ok s' ->
  (Ascii.eqb (byte_at s (cursor s)) LBRACKET = false /\
   exists n, cursor s < n /\
             (s' = set_cursor n s \/ s' = set_cursor n (incr_line s))) \/
  (byte_at s (cursor s) = LBRACKET /\
   exists s0, parse_section_header s = Ok s0 /\ s' = incr_cursor s0) \/
  (is_kv_start (byte_at s (cursor s)) = true /\
   exists s0, parse_kv s = Ok s0 /\ s' = incr_cursor s0).
Proof.
  unfold parse_ini_step, dispatch, is_kv_start.
  destruct (Ascii.eqb (byte_at s (cursor s)) CR) eqn:Ecr.
  { intros H. left. apply Ascii.eqb_eq in Ecr. rewrite Ecr.
    split; [reflexivity|]. exists (cursor s + 1). split; [lia|].
    destruct (_ && _); injection H as <-; [left | right]; reflexivity. }
  destruct (Ascii.eqb (byte_at s (cursor s)) LF) eqn:Elf.
  { intros H. left. apply Ascii.eqb_eq in Elf. rewrite Elf.
    split; [reflexivity|]. exists (cursor s + 1). split; [lia|].
    injection H as <-. right. reflexivity. }
  destruct (is_blank (byte_at s (cursor s))) eqn:Eb.
  { intros H. left. split.
    { unfold is_blank in Eb.
      apply orb_true_iff in Eb as [Eb|Eb]; apply Ascii.eqb_eq in Eb;
        now rewrite Eb. }
    exists (cursor s + 1). split; [lia|].
    injection H as <-. left. reflexivity. }
  destruct (Ascii.eqb (byte_at s (cursor s)) SEMI) eqn:Esemi.
  { intros H. left. split.
    { apply Ascii.eqb_eq in Esemi. now rewrite Esemi. }
    injection H as <-. rewrite discard_comment_spec.
    exists (cursor s + List.length (take_while not_eol (suffix s)) + 1).
    split; [lia | left; reflexivity]. }
  destruct (Ascii.eqb (byte_at s (cursor s)) LBRACKET) eqn:Elb.
  { intros H. right. left. split; [now apply Ascii.eqb_eq|].
    destruct (parse_section_header s) as [s0| |]; try discriminate.
    injection H as <-. now exists s0. }
  intros H. right. right. split; [reflexivity|].
  destruct (parse_kv s) as [s0| |]; try discriminate.
  injection H as <-. now exists s0.
Qed.

Lemma parse_ini_step_progress s s' :
  parse_ini_step s = Ok s' -> buf s' = buf s /\ cursor s < cursor s'.
Proof.
  intros H. apply parse_ini_step_Ok_inv in H
    as [(_ & n & Hn & [-> | ->]) | [(_ & s0 & H0 & ->) | (_ & s0 & H0 & ->)]].
  - now split.
  - now split.
  - apply parse_section_header_Ok_inv in H0 as (name & tail & _ & _ & ->).
    simpl. split; [reflexivity | lia].
  - apply parse_kv_Ok_inv in H0 as (pre & r2 & _ & _ & _ & _ & ->).
    simpl. split; [reflexivity | unfold kv_end; lia].
Qed.

(** ** The top-level loop does not depend on its fuel *)

Lemma parse_ini_loop_fuel f1 : forall f2 s,
  remaining s <= f1 -> remaining s <= f2 ->
  parse_ini_loop f1 s = parse_ini_loop f2 s.
Proof.
  induction f1 as [|f1 IH]; intros [|f2] s H1 H2; simpl; try reflexivity.
  - now rewrite (remaining_0 s H1).
  - now rewrite (remaining_0 s H2).
  - destruct (in_bounds s) eqn:E; [|reflexivity].
    destruct (parse_ini_step s) as [s'| |] eqn:Hs; try reflexivity.
    destruct (parse_ini_step_progress s s' Hs) as [Hb Hc].
    apply IH; unfold remaining in *; rewrite Hb; lia.
Qed.

Lemma parse_ini_unfold s :
  parse_ini s =
  if in_bounds s then
    match parse_ini_step s with
    | Ok s' => parse_ini s'
    | r => r
    end
  else Ok s.
Proof.
  unfold parse_ini at 1. destruct (remaining s) as [|f] eqn:Hr; simpl.
  - rewrite remaining_0 by lia. reflexivity.
  - destruct (in_bounds s) eqn:E; [|reflexivity].
    destruct (parse_ini_step s) as [s'| |] eqn:Hs; try reflexivity.
    destruct (parse_ini_step_progress s s' Hs) as [Hb Hc].
    apply parse_ini_loop_fuel; unfold remaining in *; rewrite ?Hb; lia.
Qed.

Lemma parse_ini_loop_enough fuel s :
  remaining s <= fuel -> parse_ini_loop fuel s = parse_ini s.
Proof. intros H. apply parse_ini_loop_fuel; [exact H | apply Nat.le_refl]. Qed.

(** ** Runs *)

Lemma steps_trans s1 s2 s3 : steps s1 s2 -> steps s2 s3 -> steps s1 s3.
Proof.
  induction 1 as [|s s' s'' Hb Hs _ IH]; intros H; [exact H|].
  eapply steps_next; eauto.
Qed.

Lemma steps_parse_ini s s' : steps s s' -> parse_ini s = parse_ini s'.
Proof.
  induction 1 as [|s s' s'' Hb Hs _ IH]; [reflexivity|].
  rewrite parse_ini_unfold, Hb, Hs. exact IH.
Qed.

Lemma steps_buf s s' : steps s s' -> buf s' = buf s.
Proof.
  induction 1 as [|s s' s'' Hb Hs _ IH]; [reflexivity|].
  rewrite IH. now apply parse_ini_step_progress.
Qed.

(** A parse that returns 0 ran to the end of the buffer. *)
Lemma parse_ini_Ok_inv s s' :
  parse_ini s = Ok s' -> steps s s' /\ in_bounds s' = false.
Proof.
  remember (remaining s) as n eqn:Hn. revert s Hn.
  induction n as [n IH] using lt_wf_ind. intros s Hn.
  rewrite parse_ini_unfold. destruct (in_bounds s) eqn:Hb.
  - destruct (parse_ini_step s) as [s1| |] eqn:Hs; try discriminate.
    intros H. destruct (parse_ini_step_progress s s1 Hs) as [Hbuf Hc].
    apply in_bounds_true in Hb.
    destruct (IH (remaining s1)) with (s := s1) as [H1 H2]; auto.
    { subst n. unfold remaining. rewrite Hbuf. lia. }
    split; [|exact H2]. eapply steps_next; eauto. now apply in_bounds_true.
  - intros H. injection H as <-. split; [constructor | exact Hb].
Qed.

(** A parse that returns an error ran without error up to the iteration
    that returned it. *)
Lemma parse_ini_Err_inv s d ln s' :
  parse_ini s = Err d ln s' ->
  exists s1, steps s s1 /\ in_bounds s1 = true /\
             parse_ini_step s1 = Err d ln s'.
Proof.
  remember (remaining s) as n eqn:Hn. revert s Hn.
  induction n as [n IH] using lt_wf_ind. intros s Hn.
  rewrite parse_ini_unfold. destruct (in_bounds s) eqn:Hb; [|discriminate].
  destruct (parse_ini_step s) as [s1| |] eqn:Hs; try discriminate.
  - intros H. destruct (parse_ini_step_progress s s1 Hs) as [Hbuf Hc].
    pose proof Hb as Hb'. apply in_bounds_true in Hb'.
    destruct (IH (remaining s1)) with (s := s1) as (s2 & H1 & H2 & H3); auto.
    { subst n. unfold remaining. rewrite Hbuf. lia. }
    exists s2. repeat split; auto. eapply steps_next; eauto.
  - intros H. injection H as <- <- <-. exists s. repeat split; auto.
    constructor.
Qed.

(** * The claims *)

(** ** Section headers *)

(** C10: inside a section header, line terminators neither end the header
    nor count as lines.  [parse_section_header] scans to the first [']']
    wherever it is in the rest of the buffer: the section slice is every
    byte in between, whatever those bytes are, and the line counter is left
    alone; the header fails exactly when no [']'] follows at all.  The
    scenario has a header that spans two lines: the record's section holds
    the line feed, and the parse ends with line 2 for three lines of text. *)
Theorem section_header_scans_to_first_rbracket :
  (forall ini name tail,
     skipn (cursor ini + 1) (buf ini) = name ++ RBRACKET :: tail ->
     forallb not_rbracket name = true ->
     exists ini',
       parse_section_header ini = Ok ini' /\
       cursor ini' = cursor ini + 1 + List.length name /\
       line ini' = line ini /\
       slice_bytes (buf ini') (section ini') = name) /\
  (forall ini,
     (exists d ln ini', parse_section_header ini = Err d ln ini') <->
     forallb not_rbracket (skipn (cursor ini + 1) (buf ini)) = true) /\
  run ("[a" ++ nl ++ "b]" ++ crlf ++ "k=v")
  = Parsed [(("a" ++ nl ++ "b")%string, "k"%string, "v"%string)] 2.
Proof.
  split; [|split].
  - intros ini name tail Hs Hn.
    rewrite parse_section_header_spec. cbv zeta. rewrite Hs.
    rewrite (take_while_stop not_rbracket name RBRACKET tail Hn eq_refl).
    rewrite (drop_while_stop not_rbracket name RBRACKET tail Hn eq_refl).
    eexists. split; [reflexivity|]. repeat split.
    unfold slice_bytes. simpl. rewrite Hs.
    rewrite firstn_app, Nat.sub_diag, firstn_all. simpl. apply app_nil_r.
  - intros ini. split.
    + intros (d & ln & ini' & H).
      now apply parse_section_header_Err_inv in H as (_ & _ & H & _).
    + intros H. rewrite parse_section_header_spec. cbv zeta.
      rewrite (drop_while_all not_rbracket _ H). eauto.
  - vm_compute. reflexivity.
Qed.

Lemma section_header_scans_to_first_rbracket_witness :
  let ini := load (list_ascii_of_string ("[a" ++ nl ++ "b]")) in
  let name := list_ascii_of_string ("a" ++ nl ++ "b") in
  skipn (cursor ini + 1) (buf ini) = name ++ RBRACKET :: [] /\
  forallb not_rbracket name = true /\
  exists ini',
    parse_section_header ini = Ok ini' /\
    cursor ini' = cursor ini + 1 + List.length name /\
    line ini' = line ini /\
    slice_bytes (buf ini') (section ini') = name.
Proof.
  cbv zeta. split; [reflexivity|]. split; [reflexivity|].
  apply (proj1 section_header_scans_to_first_rbracket
           (load (list_ascii_of_string ("[a" ++ nl ++ "b]")))
           (list_ascii_of_string ("a" ++ nl ++ "b")) []); reflexivity.
Defined.

(** C6: a header that is never closed does fail the parse with
    [UnterminatedSection], and the scenario reports line 1; but the line
    reported is the line counter, and a key/value line before the header has
    not moved it.  On ["name = value\r\n[section"] the ['['], at offset 14,
    stands on line 2 of the text and the parse reports line 1: the [\r] that
    ends the first line is taken by the value loop of [parse_kv] and the
    [\n] by the [ini->cursor++] of the loop, so the [case '\n'] that counts
    the line never runs. *)
Theorem unterminated_section_reports_line_before :
  nth 14 (list_ascii_of_string ("name = value" ++ crlf ++ "[section")) NUL
  = LBRACKET /\
  spec_line_of (list_ascii_of_string ("name = value" ++ crlf ++ "[section")) 14
  = 2 /\
  (exists s s',
     steps (load (list_ascii_of_string
                    ("name = value" ++ crlf ++ "[section"))) s /\
     cursor s = 14 /\ line s = 1 /\
     parse_ini_step s = Err UnterminatedSection 1 s') /\
  run ("name = value" ++ crlf ++ "[section")
  = Failed UnterminatedSection 1 [(""%string, "name"%string, "value"%string)] /\
  run ("[incomplete" ++ nl ++ "key=value") = Failed UnterminatedSection 1 [].
Proof.
  split; [reflexivity|]. split; [vm_compute; reflexivity|].
  split; [|split; vm_compute; reflexivity].
  eexists. eexists. split.
  { eapply steps_next; [reflexivity | vm_compute; reflexivity |].
    apply steps_refl. }
  split; [reflexivity|]. split; [reflexivity|]. vm_compute. reflexivity.
Qed.

(** ** Key/value lines *)

Lemma forallb_app_scan (p : ascii -> bool) l m :
  forallb p l = true ->
  take_while p (l ++ m) = l ++ take_while p m /\
  drop_while p (l ++ m) = drop_while p m.
Proof.
  induction l as [|x t IH]; simpl; intros H; [now split|].
  apply andb_true_iff in H as [Hx Ht]. rewrite Hx.
  destruct (IH Ht) as [-> ->]. now split.
Qed.

Lemma key_byte_not_eol l :
  forallb key_byte l = true -> forallb not_eol l = true.
Proof.
  induction l as [|x t IH]; simpl; [reflexivity|].
  intros H. apply andb_true_iff in H as [Hx Ht].
  unfold key_byte in Hx. apply andb_true_iff in Hx as [_ ->]. now apply IH.
Qed.

Lemma key_byte_not_equals l :
  forallb key_byte l = true -> forallb not_equals l = true.
Proof.
  induction l as [|x t IH]; simpl; [reflexivity|].
  intros H. apply andb_true_iff in H as [Hx Ht].
  unfold key_byte in Hx. apply andb_true_iff in Hx as [-> _]. now apply IH.
Qed.

Lemma blank_all_key_byte l :
  forallb is_blank l = true -> forallb key_byte l = true.
Proof.
  induction l as [|x t IH]; simpl; [reflexivity|].
  intros H. apply andb_true_iff in H as [Hx Ht].
  rewrite (blank_key_byte x Hx). now apply IH.
Qed.

Lemma trim_blank l : forallb is_blank l = true -> trim l = [].
Proof. intros H. unfold trim. now rewrite (lstrip_blank l H). Qed.

Lemma trim_nonblank l : forallb is_blank l = false -> trim l <> [].
Proof.
  intros H. unfold trim. apply rstrip_nonblank. now rewrite forallb_lstrip.
Qed.

(** C3: on ["=value"] the code does not emit a record with an empty key.
    The key loop leaves at the [=] with [key_end] still null, the value
    ["value"] is found, and [parse_kv] stops at its own [assert(key_end)]:
    the parse ends there, with neither a record nor an error code.  The
    sibling case, a key without a value, has its error return. *)
Theorem empty_key_aborts :
  parse_kv (load (list_ascii_of_string "=value")) = Abort /\
  run "=value" = Aborted /\
  run "key=" = Failed MissingValue 1 [].
Proof. repeat split; vm_compute; reflexivity. Qed.

(** C7: a value of spaces and tabs only does fail the parse with
    [MissingValue], and the scenario reports line 1; but the line reported is
    the line counter, and a key/value line before has not moved it.  On
    ["a=1\r\nb =  \r\n"] the key [b], at offset 5, stands on line 2 of the
    text and the parse reports line 1.  Nor does a value with a byte other
    than a space or a tab always give a value slice: after an empty key,
    ["=v\n"], the parse stops at [assert(key_end)]. *)
Theorem missing_value_reports_line_before :
  nth 5 (list_ascii_of_string ("a=1" ++ crlf ++ "b =  " ++ crlf)) NUL
  = "b"%char /\
  spec_line_of (list_ascii_of_string ("a=1" ++ crlf ++ "b =  " ++ crlf)) 5
  = 2 /\
  (exists s s',
     steps (load (list_ascii_of_string
                    ("a=1" ++ crlf ++ "b =  " ++ crlf))) s /\
     cursor s = 5 /\ line s = 1 /\
     parse_ini_step s = Err MissingValue 1 s') /\
  run ("a=1" ++ crlf ++ "b =  " ++ crlf)
  = Failed MissingValue 1 [(""%string, "a"%string, "1"%string)] /\
  run ("key =   " ++ nl) = Failed MissingValue 1 [] /\
  run ("=v" ++ nl) = Aborted.
Proof.
  split; [reflexivity|]. split; [vm_compute; reflexivity|].
  split; [|repeat split; vm_compute; reflexivity].
  eexists. eexists. split.
  { eapply steps_next; [reflexivity | vm_compute; reflexivity |].
    apply steps_refl. }
  split; [reflexivity|]. split; [reflexivity|]. vm_compute. reflexivity.
Qed.

(** C8: the line ["  name = value  "] alone gives key ["name"] and value
    ["value"]; but a key/value line that follows a line ended by [\n] loses
    the first byte of its key.  On ["a=1\nname = value  \n"] the second
    line has key text ["name"] and its record has key ["ame"]: [parse_kv]
    returns from the first line one past the [\n], on the [n], and the
    [ini->cursor++] of the loop steps over it. *)
Theorem key_after_line_feed_loses_first_byte :
  run ("a=1" ++ nl ++ "name = value  " ++ nl)
  = Parsed [(""%string, "a"%string, "1"%string);
            (""%string, "ame"%string, "value"%string)] 1 /\
  spec_records [] (spec_lines (list_ascii_of_string
                                 ("a=1" ++ nl ++ "name = value  " ++ nl)))
  = [([], list_ascii_of_string "a", list_ascii_of_string "1");
     ([], list_ascii_of_string "name", list_ascii_of_string "value")] /\
  (exists s,
     steps (load (list_ascii_of_string
                    ("a=1" ++ nl ++ "name = value  " ++ nl))) s /\
     cursor s = 5 /\ byte_at s 4 = "n"%char /\ byte_at s 5 = "a"%char) /\
  run "  name = value  "
  = Parsed [(""%string, "name"%string, "value"%string)] 1.
Proof.
  split; [vm_compute; reflexivity|]. split; [vm_compute; reflexivity|].
  split; [|vm_compute; reflexivity].
  eexists. split.
  { eapply steps_next; [reflexivity | vm_compute; reflexivity |].
    apply steps_refl. }
  split; [reflexivity|]. split; reflexivity.
Qed.

Lemma suffix_nonempty_in_bounds s x t : suffix s = x :: t -> in_bounds s = true.
Proof.
  intros H. destruct (in_bounds s) eqn:E; [reflexivity|].
  rewrite (suffix_nil s E) in H. discriminate.
Qed.

Lemma app_nonempty_head (l : list ascii) x t :
  exists y u, l ++ x :: t = y :: u.
Proof. destruct l as [|y u]; simpl; eauto. Qed.

(** C9: when the value scan of a key/value line ends at a [\r] or [\n],
    [parse_kv] returns with the cursor one past that terminator and with the
    line counter as it was.  The [ini->cursor++] of the top-level loop then
    steps over the byte after the terminator: the parse goes on two bytes past
    the terminator, so that byte is never dispatched and the terminator is
    never counted as a line.  [text] are the bytes from the cursor to the
    terminator [t]. *)
Theorem parse_kv_stops_past_terminator ini ini' text t tail :
  suffix ini = text ++ t :: tail ->
  forallb not_eol text = true ->
  is_eol t = true ->
  parse_kv ini = Ok ini' ->
  cursor ini' = cursor ini + List.length text + 1 /\
  line ini' = line ini /\
  (is_kv_start (byte_at ini (cursor ini)) = true ->
   parse_ini_step ini = Ok (incr_cursor ini') /\
   cursor (incr_cursor ini') = cursor ini + List.length text + 2 /\
   line (incr_cursor ini') = line ini /\
   parse_ini ini = parse_ini (incr_cursor ini')).
Proof.
  intros Hs Htext Ht Hkv.
  pose proof Hkv as Hinv.
  apply parse_kv_Ok_inv in Hinv as (pre & r2 & Hs' & Hp & _ & _ & Hini').
  assert (Hnt : not_eol t = false) by (unfold not_eol; now rewrite Ht).
  assert (Hc : kv_end ini pre r2 = cursor ini + List.length text + 1).
  { rewrite Hs in Hs'.
    pose proof (f_equal (take_while not_eol) Hs') as Htw.
    pose proof (f_equal (drop_while not_eol) Hs') as Hdw.
    rewrite (take_while_stop not_eol text t tail Htext Hnt) in Htw.
    rewrite (drop_while_stop not_eol text t tail Htext Hnt) in Hdw.
    destruct (forallb_app_scan not_eol pre (EQUALS :: r2)
                (key_byte_not_eol pre Hp)) as [E1 E2].
    rewrite E1 in Htw. rewrite E2 in Hdw.
    change (take_while not_eol (EQUALS :: r2))
      with (EQUALS :: take_while not_eol r2) in Htw.
    change (drop_while not_eol (EQUALS :: r2))
      with (drop_while not_eol r2) in Hdw.
    unfold kv_end. rewrite <- Hdw, Htw, length_app. simpl. lia. }
  assert (Hcur : cursor ini' = cursor ini + List.length text + 1)
    by (rewrite Hini'; exact Hc).
  assert (Hline : line ini' = line ini) by (rewrite Hini'; reflexivity).
  split; [exact Hcur|]. split; [exact Hline|].
  intros Hstart.
  assert (Hstep : parse_ini_step ini = Ok (incr_cursor ini')).
  { unfold parse_ini_step. now rewrite (dispatch_kv ini Hstart), Hkv. }
  split; [exact Hstep|].
  split; [simpl; lia|]. split; [exact Hline|].
  destruct (app_nonempty_head text t tail) as (y & u & Hyu).
  rewrite Hyu in Hs.
  rewrite (parse_ini_unfold ini), (suffix_nonempty_in_bounds ini y u Hs), Hstep.
  reflexivity.
Qed.

Lemma parse_kv_stops_past_terminator_witness :
  let ini := load (list_ascii_of_string ("k=v" ++ nl ++ "x=1")) in
  let ini' :=
    push_back {| kv_section := {| data := None; length := 0 |};
                 key := {| data := Some 0; length := 1 |};
                 value := {| data := Some 2; length := 1 |} |}
      (set_cursor 4 ini) in
  cursor ini' = 4 /\ line ini' = 1 /\
  parse_ini_step ini = Ok (incr_cursor ini') /\
  cursor (incr_cursor ini') = 5 /\
  byte_at ini 4 = "x"%char.
Proof.
  cbv zeta.
  destruct (parse_kv_stops_past_terminator
              (load (list_ascii_of_string ("k=v" ++ nl ++ "x=1")))
              (push_back {| kv_section := {| data := None; length := 0 |};
                            key := {| data := Some 0; length := 1 |};
                            value := {| data := Some 2; length := 1 |} |}
                 (set_cursor 4
                    (load (list_ascii_of_string ("k=v" ++ nl ++ "x=1")))))
              (list_ascii_of_string "k=v") LF (list_ascii_of_string "x=1")
              eq_refl eq_refl eq_refl eq_refl)
    as (Hc & Hl & Hstep).
  destruct (Hstep eq_refl) as (H1 & H2 & _ & _).
  split; [exact Hc|]. split; [exact Hl|]. split; [exact H1|].
  split; [exact H2 | reflexivity].
Defined.

(** C1, on the code: in the scenario the second record has key ["ort"].
    The iteration that starts on the [h] of ["host"], at offset 9, ends
    with the cursor at 27: [parse_kv] returns one past the line feed that
    ends ["host = localhost"], on the [p] of ["port"] at offset 26, and the
    [ini->cursor++] of the loop steps over that [p]. *)
Theorem server_scenario_drops_first_key_byte :
  run ("[server]" ++ nl ++ "host = localhost" ++ nl ++ "port = 8080" ++ nl)
  = Parsed [("server"%string, "host"%string, "localhost"%string);
            ("server"%string, "ort"%string, "8080"%string)] 2 /\
  exists s s',
    steps (load (list_ascii_of_string
                   ("[server]" ++ nl ++ "host = localhost" ++ nl
                    ++ "port = 8080" ++ nl))) s /\
    cursor s = 9 /\ byte_at s 9 = "h"%char /\
    parse_ini_step s = Ok s' /\
    byte_at s 26 = "p"%char /\ cursor s' = 27.
Proof.
  split; [vm_compute; reflexivity|].
  eexists. eexists. split.
  { eapply steps_next; [reflexivity | vm_compute; reflexivity |].
    eapply steps_next; [reflexivity | vm_compute; reflexivity |].
    apply steps_refl. }
  split; [reflexivity|]. split; [reflexivity|].
  split; [vm_compute; reflexivity|]. split; reflexivity.
Qed.

(** ** Failed parses *)

Lemma parse_ini_step_Err_inv s d ln s' :
  parse_ini_step s = Err d ln s' ->
  ln = line s /\ exists n, s' = set_cursor n s.
Proof.
  unfold parse_ini_step, dispatch.
  destruct (Ascii.eqb _ CR); [destruct (_ && _); discriminate|].
  destruct (Ascii.eqb _ LF); [discriminate|].
  destruct (is_blank _); [discriminate|].
  destruct (Ascii.eqb _ SEMI); [discriminate|].
  destruct (Ascii.eqb _ LBRACKET).
  - destruct (parse_section_header s) as [s0|d0 ln0 s0|] eqn:H;
      try discriminate.
    intros E. injection E as <- <- <-.
    apply parse_section_header_Err_inv in H as (_ & Hl & _ & Hn). now split.
  - destruct (parse_kv s) as [s0|d0 ln0 s0|] eqn:H; try discriminate.
    intros E. injection E as <- <- <-.
    apply parse_kv_Err_inv in H as (Hl & n & Hn & _). split; eauto.
Qed.

Lemma steps_properties s s' :
  steps s s' -> exists recs, properties s' = properties s ++ recs.
Proof.
  induction 1 as [s|s s' s'' Hb Hs _ (recs & IH)].
  - exists []. now rewrite app_nil_r.
  - apply parse_ini_step_Ok_inv in Hs
      as [(_ & n & Hn & [-> | ->]) | [(_ & s0 & H0 & ->) | (_ & s0 & H0 & ->)]].
    + now exists recs.
    + now exists recs.
    + apply parse_section_header_Ok_inv in H0 as (name & tail & _ & _ & ->).
      now exists recs.
    + apply parse_kv_Ok_inv in H0 as (pre & r2 & _ & _ & _ & _ & ->).
      exists (kv_record s pre r2 :: recs). rewrite IH. simpl.
      now rewrite <- app_assoc.
Qed.

(** C4, as the code has it: a parse that fails stops at the first iteration
    that returns an error, every iteration before it having succeeded; that
    iteration pushes no record and reports the current line; the records
    pushed before it stay in [ini->properties], which [parse_ini] does not
    clear.  [main] prints none of them. *)
Theorem failed_parse_stops_and_keeps_records b d ln s' :
  parse_ini (load b) = Err d ln s' ->
  (exists s,
     steps (load b) s /\ in_bounds s = true /\
     parse_ini_step s = Err d ln s' /\
     ln = line s /\ properties s' = properties s) /\
  main_stdout b = [].
Proof.
  intros H. split.
  - destruct (parse_ini_Err_inv _ _ _ _ H) as (s & Hrun & Hb & Hs).
    exists s. repeat split; auto.
    + now apply parse_ini_step_Err_inv in Hs as [Hl _].
    + apply parse_ini_step_Err_inv in Hs as (_ & n & ->). reflexivity.
  - unfold main_stdout. now rewrite H.
Qed.

Lemma failed_parse_stops_and_keeps_records_witness :
  let b := list_ascii_of_string ("a=1" ++ crlf ++ "[x") in
  exists s',
    parse_ini (load b) = Err UnterminatedSection 1 s' /\
    List.length (properties s') = 1 /\
    main_stdout b = [].
Proof.
  cbv zeta.
  assert (H : parse_ini (load (list_ascii_of_string ("a=1" ++ crlf ++ "[x")))
              = Err UnterminatedSection 1
                  (push_back
                     {| kv_section := {| data := None; length := 0 |};
                        key := {| data := Some 0; length := 1 |};
                        value := {| data := Some 2; length := 1 |} |}
                     (set_cursor 7
                        (load (list_ascii_of_string ("a=1" ++ crlf ++ "[x"))))))
    by (vm_compute; reflexivity).
  eexists. split; [exact H|]. split; [reflexivity|].
  exact (proj2 (failed_parse_stops_and_keeps_records _ _ _ _ H)).
Defined.

(** C4, as the claim has it, fails on ["a=1\r\n[x"]: the parse fails at the
    header and the record of the first line is still among the properties. *)
Lemma failed_parse_still_has_records :
  run ("a=1" ++ crlf ++ "[x")
  = Failed UnterminatedSection 1 [(""%string, "a"%string, "1"%string)].
Proof. vm_compute. reflexivity. Qed.

(** ** Well-formed files *)

Lemma suffix_head s x t :
  suffix s = x :: t ->
  byte_at s (cursor s) = x /\ suffix (incr_cursor s) = t /\ in_bounds s = true.
Proof.
  intros H. pose proof (suffix_nonempty_in_bounds s x t H) as Hb.
  rewrite (suffix_cons s Hb) in H. injection H as H1 H2. auto.
Qed.

Lemma suffix_empty s : suffix s = [] -> in_bounds s = false.
Proof.
  intros H. apply in_bounds_false.
  pose proof (suffix_length s) as Hl. rewrite H in Hl.
  unfold remaining in Hl. simpl in Hl. lia.
Qed.

(** The suffix depends on the buffer and the cursor only. *)
Lemma suffix_moved s s1 l1 l2 :
  suffix s = l1 ++ l2 ->
  buf s1 = buf s -> cursor s1 = cursor s + List.length l1 ->
  suffix s1 = l2.
Proof.
  intros H Hb Hc. rewrite <- (suffix_app s l1 l2 H).
  unfold suffix. now rewrite Hb, Hc.
Qed.

Lemma reaches_here s : reaches s (suffix s) 0.
Proof. exists s. split; [apply steps_refl|]. split; [reflexivity | lia]. Qed.

Lemma reaches_then s rest1 n1 rest2 n2 :
  reaches s rest1 n1 ->
  (forall s1, suffix s1 = rest1 -> reaches s1 rest2 n2) ->
  reaches s rest2 (n1 + n2).
Proof.
  intros (s1 & H1 & Hs1 & Hp1) H.
  destruct (H s1 Hs1) as (s2 & H2 & Hs2 & Hp2).
  exists s2. split; [eapply steps_trans; eauto|]. split; [exact Hs2 | lia].
Qed.

(** One successful iteration, as a run. *)
Lemma reaches_step s s' l1 l2 n :
  suffix s = l1 ++ l2 -> l1 <> [] ->
  parse_ini_step s = Ok s' ->
  buf s' = buf s -> cursor s' = cursor s + List.length l1 ->
  List.length (properties s') = List.length (properties s) + n ->
  reaches s l2 n.
Proof.
  intros Hs Hne Hstep Hb Hc Hp. exists s'.
  split; [|split; [eapply suffix_moved; eauto | exact Hp]].
  eapply steps_next; [|exact Hstep|apply steps_refl].
  destruct l1 as [|x t]; [congruence|].
  eapply suffix_nonempty_in_bounds. exact Hs.
Qed.

Lemma reaches_blanks bl : forall s rest,
  suffix s = bl ++ rest -> forallb is_blank bl = true -> reaches s rest 0.
Proof.
  induction bl as [|x bl IH]; intros s rest Hs Hb.
  - simpl in Hs. rewrite <- Hs. apply reaches_here.
  - simpl in Hb. apply andb_true_iff in Hb as [Hx Hbl].
    change 0 with (0 + 0).
    apply (reaches_then s (bl ++ rest) 0 rest 0); [|intros s1 H1; now apply IH].
    destruct (suffix_head s x (bl ++ rest) Hs) as (Hbyte & _ & _).
    apply (reaches_step s (incr_cursor s) [x] (bl ++ rest) 0);
      try reflexivity; try assumption; try discriminate; try (simpl; lia).
    unfold parse_ini_step. rewrite dispatch_blank; [reflexivity|].
    now rewrite Hbyte.
Qed.

Lemma reaches_crlf s rest : suffix s = CR :: LF :: rest -> reaches s rest 0.
Proof.
  intros Hs.
  destruct (suffix_head s CR (LF :: rest) Hs) as (Hcr & Hs1 & Hb).
  destruct (suffix_head (incr_cursor s) LF rest Hs1) as (Hlf & _ & Hb1).
  change 0 with (0 + 0).
  apply (reaches_then s (LF :: rest) 0 rest 0).
  - apply (reaches_step s (incr_cursor s) [CR] (LF :: rest) 0);
      try reflexivity; try assumption; try discriminate; try (simpl; lia).
    unfold parse_ini_step, dispatch. rewrite Hcr.
    change (Ascii.eqb CR CR) with true. cbv iota.
    change (byte_at s (cursor s + 1))
      with (byte_at (incr_cursor s) (cursor (incr_cursor s))).
    rewrite Hlf. change (Ascii.eqb LF LF) with true.
    apply in_bounds_true in Hb1. simpl in Hb1.
    replace (cursor s <? List.length (buf s) - 1) with true
      by (symmetry; apply Nat.ltb_lt; lia).
    reflexivity.
  - intros s1 H1.
    destruct (suffix_head s1 LF rest H1) as (Hlf1 & _ & _).
    apply (reaches_step s1 (incr_cursor (incr_line s1)) [LF] rest 0);
      try reflexivity; try assumption; try discriminate; try (simpl; lia).
    unfold parse_ini_step. now rewrite (dispatch_lf s1 Hlf1).
Qed.

Lemma reaches_comment s text rest :
  suffix s = SEMI :: text ++ CR :: LF :: rest ->
  forallb not_eol text = true ->
  reaches s rest 0.
Proof.
  intros Hs Ht.
  destruct (suffix_head s SEMI _ Hs) as (Hsemi & _ & _).
  change 0 with (0 + 0).
  apply (reaches_then s (LF :: rest) 0 rest 0).
  - apply (reaches_step s (incr_cursor (discard_comment s))
             (SEMI :: text ++ [CR]) (LF :: rest) 0).
    + rewrite Hs. simpl. now rewrite <- app_assoc.
    + discriminate.
    + unfold parse_ini_step. now rewrite (dispatch_comment s Hsemi).
    + rewrite discard_comment_spec. reflexivity.
    + rewrite discard_comment_spec, Hs.
      change (SEMI :: text ++ CR :: LF :: rest)
        with ((SEMI :: text) ++ CR :: LF :: rest).
      rewrite (take_while_stop not_eol (SEMI :: text) CR (LF :: rest));
        [|simpl; exact Ht|reflexivity].
      simpl. rewrite length_app. simpl. lia.
    + rewrite discard_comment_spec. simpl. lia.
  - intros s1 H1.
    destruct (suffix_head s1 LF rest H1) as (Hlf1 & _ & _).
    apply (reaches_step s1 (incr_cursor (incr_line s1)) [LF] rest 0);
      try reflexivity; try assumption; try discriminate; try (simpl; lia).
    unfold parse_ini_step. now rewrite (dispatch_lf s1 Hlf1).
Qed.

Lemma reaches_header s name after rest :
  suffix s = LBRACKET :: name ++ RBRACKET :: after ++ CR :: LF :: rest ->
  forallb not_rbracket name = true ->
  forallb is_blank after = true ->
  reaches s rest 0.
Proof.
  intros Hs Hn Ha.
  destruct (suffix_head s LBRACKET _ Hs) as (Hlb & Hs1 & _).
  change 0 with (0 + (0 + 0)).
  apply (reaches_then s (after ++ CR :: LF :: rest) 0 rest (0 + 0)).
  - assert (Hh : parse_section_header s
                 = Ok (set_section
                         {| data := Some (cursor s + 1);
                            length := List.length name |}
                         (set_cursor (cursor s + 1 + List.length name) s))).
    { rewrite parse_section_header_spec. cbv zeta.
      change (skipn (cursor s + 1) (buf s)) with (suffix (incr_cursor s)).
      rewrite Hs1.
      rewrite (take_while_stop not_rbracket name RBRACKET _ Hn eq_refl).
      rewrite (drop_while_stop not_rbracket name RBRACKET _ Hn eq_refl).
      reflexivity. }
    eapply (reaches_step s _ (LBRACKET :: name ++ [RBRACKET])
              (after ++ CR :: LF :: rest) 0).
    + rewrite Hs. simpl. now rewrite <- app_assoc.
    + discriminate.
    + unfold parse_ini_step. rewrite (dispatch_header s Hlb), Hh. reflexivity.
    + reflexivity.
    + simpl. rewrite length_app. simpl. lia.
    + simpl. lia.
  - intros s1 H1.
    apply (reaches_then s1 (CR :: LF :: rest) 0 rest 0).
    + now apply (reaches_blanks after).
    + intros s2 H2. now apply reaches_crlf.
Qed.

Lemma forallb_app_l (p : ascii -> bool) l m :
  forallb p (l ++ m) = true -> forallb p l = true /\ forallb p m = true.
Proof. rewrite forallb_app. apply andb_true_iff. Qed.

Lemma not_equals_not_eol_key_byte l :
  forallb not_equals l = true -> forallb not_eol l = true ->
  forallb key_byte l = true.
Proof.
  induction l as [|x t IH]; simpl; [reflexivity|].
  intros H1 H2. apply andb_true_iff in H1 as [Hx1 Ht1].
  apply andb_true_iff in H2 as [Hx2 Ht2].
  unfold key_byte at 1. rewrite Hx1, Hx2. now apply IH.
Qed.

Lemma reaches_key_value s pre v rest :
  suffix s = pre ++ EQUALS :: v ++ CR :: LF :: rest ->
  is_kv_start (byte_at s (cursor s)) = true ->
  forallb key_byte pre = true ->
  forallb not_eol v = true ->
  trim pre <> [] -> trim v <> [] ->
  reaches s rest 1.
Proof.
  intros Hs Hstart Hp Hv Hk Hval.
  pose proof (parse_kv_spec s pre (v ++ CR :: LF :: rest) Hs Hp) as Hkv.
  rewrite (take_while_stop not_eol v CR (LF :: rest) Hv eq_refl) in Hkv.
  assert (Hend : kv_end s pre (v ++ CR :: LF :: rest)
                 = cursor s + List.length pre + 1 + List.length v + 1).
  { unfold kv_end.
    rewrite (take_while_stop not_eol v CR (LF :: rest) Hv eq_refl).
    rewrite (drop_while_stop not_eol v CR (LF :: rest) Hv eq_refl).
    reflexivity. }
  destruct (trim v) as [|v0 vs]; [congruence|].
  destruct (trim pre) as [|k0 ks]; [congruence|].
  eapply (reaches_step s _ (pre ++ EQUALS :: v ++ [CR; LF]) rest 1).
  - rewrite Hs, <- app_assoc. simpl. now rewrite <- app_assoc.
  - destruct pre; discriminate.
  - unfold parse_ini_step. rewrite (dispatch_kv s Hstart), Hkv. reflexivity.
  - reflexivity.
  - cbn [cursor incr_cursor set_cursor push_back]. rewrite Hend.
    rewrite length_app. simpl. rewrite length_app. simpl. lia.
  - cbn [properties incr_cursor set_cursor push_back].
    rewrite length_app. reflexivity.
Qed.

(** A well-formed line has the shape of its kind. *)
Lemma well_formed_shape l :
  well_formed_line l = true -> body_shape (lstrip l) (spec_classify l).
Proof.
  intros Hwf. unfold well_formed_line in Hwf.
  apply andb_true_iff in Hwf as [Hne Hm]. apply negb_true_iff in Hm.
  assert (Hbody : forallb not_eol (lstrip l) = true)
    by now apply forallb_drop_while.
  unfold spec_classify in *.
  destruct (lstrip l) as [|c r] eqn:El; [constructor|].
  pose proof (drop_while_head is_blank l c r El) as Hcb.
  simpl in Hbody. apply andb_true_iff in Hbody as [Hce Hr].
  destruct (Ascii.eqb c SEMI) eqn:Esemi.
  { apply Ascii.eqb_eq in Esemi. subst c. now constructor. }
  destruct (Ascii.eqb c LBRACKET) eqn:Elb.
  { apply Ascii.eqb_eq in Elb. subst c.
    pose proof (take_drop_while not_rbracket r) as Hsplit.
    pose proof (take_while_forallb not_rbracket r) as Hname.
    destruct (drop_while not_rbracket r) as [|x after] eqn:Ed;
      [discriminate|].
    apply drop_while_head in Ed. unfold not_rbracket in Ed.
    apply negb_false_iff, Ascii.eqb_eq in Ed. subst x.
    destruct (forallb is_blank after) eqn:Ea; [|discriminate].
    rewrite <- Hsplit. now constructor. }
  set (body := c :: r) in *.
  pose proof (take_drop_while not_equals body) as Hsplit.
  pose proof (take_while_forallb not_equals body) as Hpre.
  destruct (drop_while not_equals body) as [|e v] eqn:Ed; [discriminate|].
  apply drop_while_head in Ed. unfold not_equals in Ed.
  apply negb_false_iff, Ascii.eqb_eq in Ed. subst e.
  destruct (is_nil (trim (take_while not_equals body))) eqn:Ek;
    [discriminate|].
  destruct (is_nil (trim v)) eqn:Ev; [discriminate|].
  simpl.
  assert (Hall : forallb not_eol body = true)
    by (unfold body; simpl; now rewrite Hce).
  rewrite <- Hsplit in Hall.
  apply forallb_app_l in Hall as [Hpe Hve].
  simpl in Hve.
  apply (shape_key_value c r (take_while not_equals body) v).
  - symmetry. exact Hsplit.
  - unfold is_kv_start. rewrite Hcb, Esemi, Elb.
    unfold not_eol, is_eol in Hce. apply negb_true_iff, orb_false_iff in Hce.
    destruct Hce as [-> ->]. reflexivity.
  - now apply not_equals_not_eol_key_byte.
  - exact Hve.
  - now destruct (trim (take_while not_equals body)).
  - now destruct (trim v).
Qed.

Lemma reaches_lstrip s l rest :
  suffix s = l ++ rest -> reaches s (lstrip l ++ rest) 0.
Proof.
  intros Hs. apply (reaches_blanks (take_while is_blank l)).
  - rewrite Hs, app_assoc. f_equal. symmetry. apply take_drop_while.
  - apply take_while_forallb.
Qed.

(** A line of a well-formed file, ended by [\r\n], is run through as its
    kind says: one record for a key/value line, none for the others. *)
Lemma reaches_line s l rest :
  suffix s = l ++ CR :: LF :: rest ->
  well_formed_line l = true ->
  reaches s rest (if is_key_value (spec_classify l) then 1 else 0).
Proof.
  intros Hs Hwf.
  apply (reaches_then s (lstrip l ++ CR :: LF :: rest) 0 rest);
    [now apply reaches_lstrip|].
  intros s1 H1.
  destruct (well_formed_shape l Hwf)
    as [|text Ht|name after Hn Ha|c r pre v Hsplit Hstart Hp Hv Hk Hval];
    simpl.
  - now apply reaches_crlf.
  - now apply (reaches_comment s1 text rest).
  - apply (reaches_header s1 name after rest); auto.
    rewrite H1. simpl. now rewrite <- app_assoc.
  - apply (reaches_key_value s1 pre v rest); auto.
    + rewrite H1, Hsplit, <- app_assoc. reflexivity.
    + now destruct (suffix_head s1 c _ H1) as (-> & _ & _).
Qed.

(** ** The last line, without a terminator *)

Lemma parse_ini_at_end s : suffix s = [] -> parse_ini s = Ok s.
Proof. intros H. now rewrite parse_ini_unfold, (suffix_empty s H). Qed.

Lemma parse_ini_last_step s s' :
  in_bounds s = true -> parse_ini_step s = Ok s' ->
  List.length (buf s) <= cursor s' ->
  parse_ini s = Ok s'.
Proof.
  intros Hb Hs Hc. rewrite parse_ini_unfold, Hb, Hs.
  destruct (parse_ini_step_progress s s' Hs) as [Hbuf _].
  rewrite parse_ini_unfold.
  replace (in_bounds s') with false; [reflexivity|].
  symmetry. apply in_bounds_false. now rewrite Hbuf.
Qed.

Lemma reaches_end s n :
  reaches s [] n ->
  exists s', parse_ini s = Ok s' /\
             List.length (properties s') = List.length (properties s) + n.
Proof.
  intros (s1 & Hrun & Hs1 & Hp). exists s1.
  rewrite (steps_parse_ini s s1 Hrun).
  split; [now apply parse_ini_at_end | exact Hp].
Qed.

Lemma suffix_whole_length s x t :
  suffix s = x :: t ->
  cursor s + List.length (x :: t) = List.length (buf s).
Proof.
  intros H. pose proof (suffix_length s) as Hl. rewrite H in Hl.
  destruct (suffix_head s x t H) as (_ & _ & Hb).
  apply in_bounds_true in Hb. unfold remaining in Hl. lia.
Qed.

Lemma last_line_parses s l :
  suffix s = l ->
  well_formed_line l = true ->
  exists s',
    parse_ini s = Ok s' /\
    List.length (properties s')
    = List.length (properties s)
      + (if is_key_value (spec_classify l) then 1 else 0).
Proof.
  intros Hs Hwf.
  rewrite <- (app_nil_r l) in Hs.
  destruct (reaches_lstrip s l [] Hs) as (s1 & Hrun & H1 & Hp1).
  rewrite app_nil_r in H1.
  rewrite (steps_parse_ini s s1 Hrun), Nat.add_0_r in *. rewrite <- Hp1.
  clear Hs Hrun Hp1.
  destruct (well_formed_shape l Hwf)
    as [|text Ht|name after Hn Ha|c r pre v Hsplit Hstart Hp Hv Hk Hval];
    simpl.
  - exists s1. split; [now apply parse_ini_at_end | lia].
  - destruct (suffix_head s1 SEMI text H1) as (Hsemi & _ & Hb).
    exists (incr_cursor (discard_comment s1)). split.
    + apply parse_ini_last_step; [exact Hb|..].
      * unfold parse_ini_step. now rewrite (dispatch_comment s1 Hsemi).
      * rewrite discard_comment_spec, H1.
        rewrite (take_while_all not_eol (SEMI :: text));
          [|simpl; exact Ht].
        pose proof (suffix_whole_length s1 SEMI text H1). simpl in *. lia.
    + rewrite discard_comment_spec. simpl. lia.
  - apply reaches_end. change 0 with (0 + 0).
    apply (reaches_then s1 after 0 [] 0).
    + destruct (suffix_head s1 LBRACKET _ H1) as (Hlb & Hs1 & _).
      eapply (reaches_step s1 _ (LBRACKET :: name ++ [RBRACKET]) after 0).
      * rewrite H1. simpl. now rewrite <- app_assoc.
      * discriminate.
      * unfold parse_ini_step. rewrite (dispatch_header s1 Hlb).
        rewrite parse_section_header_spec. cbv zeta.
        change (skipn (cursor s1 + 1) (buf s1)) with (suffix (incr_cursor s1)).
        rewrite Hs1.
        rewrite (take_while_stop not_rbracket name RBRACKET _ Hn eq_refl).
        rewrite (drop_while_stop not_rbracket name RBRACKET _ Hn eq_refl).
        reflexivity.
      * reflexivity.
      * simpl. rewrite length_app. simpl. lia.
      * simpl. lia.
    + intros s2 H2. apply (reaches_blanks after); [|exact Ha].
      now rewrite app_nil_r.
  - destruct (suffix_head s1 c r H1) as (Hc & _ & Hb).
    rewrite Hsplit in H1.
    pose proof (parse_kv_spec s1 pre v H1 Hp) as Hkv.
    rewrite (take_while_all not_eol v Hv) in Hkv.
    assert (Hend : kv_end s1 pre v = List.length (buf s1)).
    { unfold kv_end.
      rewrite (take_while_all not_eol v Hv), (drop_while_all not_eol v Hv).
      pose proof (suffix_length s1) as Hl. rewrite H1, length_app in Hl.
      apply in_bounds_true in Hb. unfold remaining in Hl. simpl in Hl. lia. }
    destruct (trim v) as [|v0 vs]; [congruence|].
    destruct (trim pre) as [|k0 ks]; [congruence|].
    eexists. split.
    + apply parse_ini_last_step; [exact Hb|..].
      * unfold parse_ini_step.
        rewrite dispatch_kv by (now rewrite Hc). rewrite Hkv. reflexivity.
      * cbn [cursor incr_cursor set_cursor push_back]. rewrite Hend. lia.
    + cbn [properties incr_cursor set_cursor push_back].
      rewrite length_app. reflexivity.
Qed.

Lemma crlf_file_cons l ls :
  crlf_file (l :: ls) = l ++ CR :: LF :: crlf_file ls.
Proof. unfold crlf_file. simpl. now rewrite <- app_assoc. Qed.

Lemma crlf_text_cons l ls last :
  crlf_text (l :: ls) last = l ++ CR :: LF :: crlf_text ls last.
Proof.
  unfold crlf_text. rewrite crlf_file_cons, <- app_assoc. reflexivity.
Qed.

Lemma crlf_text_parses ls last : forall s,
  suffix s = crlf_text ls last ->
  forallb well_formed_line ls = true ->
  well_formed_line last = true ->
  exists s',
    parse_ini s = Ok s' /\
    List.length (properties s')
    = List.length (properties s)
      + List.length (filter (fun l => is_key_value (spec_classify l))
                       (ls ++ [last])).
Proof.
  induction ls as [|l ls IH]; intros s Hs Hwf Hlast.
  - destruct (last_line_parses s last Hs Hlast) as (s' & Hparse & Hp).
    exists s'. split; [exact Hparse|]. rewrite Hp. simpl.
    destruct (is_key_value (spec_classify last)); reflexivity.
  - simpl in Hwf. apply andb_true_iff in Hwf as [Hl Hls].
    rewrite crlf_text_cons in Hs.
    destruct (reaches_line s l (crlf_text ls last) Hs Hl)
      as (s1 & Hrun & Hs1 & Hp1).
    destruct (IH s1 Hs1 Hls Hlast) as (s' & Hparse & Hp').
    exists s'. rewrite (steps_parse_ini s s1 Hrun).
    split; [exact Hparse|]. rewrite Hp', Hp1. simpl.
    destruct (is_key_value (spec_classify l)); simpl; lia.
Qed.

Lemma spec_lines_crlf l rest :
  forallb not_eol l = true ->
  spec_lines (l ++ CR :: LF :: rest) = l :: spec_lines rest.
Proof.
  induction l as [|c l IH]; intros H; [reflexivity|].
  simpl in H. apply andb_true_iff in H as [Hc Hl].
  change ((c :: l) ++ CR :: LF :: rest) with (c :: (l ++ CR :: LF :: rest)).
  cbn [spec_lines]. unfold not_eol in Hc. apply negb_true_iff in Hc.
  rewrite Hc, (IH Hl). reflexivity.
Qed.

Lemma spec_lines_last l : forallb not_eol l = true -> spec_lines l = [l].
Proof.
  induction l as [|c l IH]; intros H; [reflexivity|].
  simpl in H. apply andb_true_iff in H as [Hc Hl].
  cbn [spec_lines]. unfold not_eol in Hc. apply negb_true_iff in Hc.
  rewrite Hc, (IH Hl). reflexivity.
Qed.

Lemma spec_lines_crlf_text ls last :
  forallb well_formed_line ls = true ->
  well_formed_line last = true ->
  spec_lines (crlf_text ls last) = ls ++ [last].
Proof.
  intros Hls Hlast. induction ls as [|l ls IH].
  - unfold well_formed_line in Hlast.
    apply andb_true_iff in Hlast as [Hlast _].
    now apply spec_lines_last.
  - simpl in Hls. apply andb_true_iff in Hls as [Hl Hls].
    unfold well_formed_line in Hl. apply andb_true_iff in Hl as [Hl _].
    rewrite crlf_text_cons, (spec_lines_crlf l _ Hl), (IH Hls). reflexivity.
Qed.

(** C2, as the code has it: on a buffer made of lines ended by [\r\n], the
    last of which may come without its terminator, each of them blank, a
    comment, a section header closed on its line or a syntactically valid
    [key = value] line, the parse succeeds and the number of records is the
    number of [key = value] lines of the buffer; the comment, blank and
    header lines contribute none. *)
Theorem crlf_text_record_count ls last :
  forallb well_formed_line ls = true ->
  well_formed_line last = true ->
  exists s,
    parse_ini (load (crlf_text ls last)) = Ok s /\
    List.length (properties s) = spec_kv_line_count (crlf_text ls last).
Proof.
  intros Hwf Hlast.
  destruct (crlf_text_parses ls last (load (crlf_text ls last)) eq_refl
              Hwf Hlast) as (s & Hparse & Hp).
  exists s. split; [exact Hparse|].
  rewrite Hp. unfold spec_kv_line_count.
  now rewrite (spec_lines_crlf_text ls last Hwf Hlast).
Qed.

Lemma crlf_text_record_count_witness :
  let ls := map list_ascii_of_string
              ["; settings"; ""; "[server]"; "  host = localhost  ";
               "port=8080"; " [db] "]%string in
  let last := list_ascii_of_string "name = ini" in
  forallb well_formed_line ls = true /\
  well_formed_line last = true /\
  spec_kv_line_count (crlf_text ls last) = 3 /\
  exists s, parse_ini (load (crlf_text ls last)) = Ok s /\
            List.length (properties s) = spec_kv_line_count (crlf_text ls last).
Proof.
  cbv zeta. split; [vm_compute; reflexivity|].
  split; [vm_compute; reflexivity|].
  split; [vm_compute; reflexivity|].
  apply (crlf_text_record_count
           (map list_ascii_of_string
              ["; settings"; ""; "[server]"; "  host = localhost  ";
               "port=8080"; " [db] "]%string)
           (list_ascii_of_string "name = ini")).
  - vm_compute. reflexivity.
  - vm_compute. reflexivity.
Defined.

(** C2, as the claim has it, fails on ["[a\nx=1\n]"]: the parse succeeds
    without a record, the header running over the line ["x=1"], which is a
    syntactically valid [key = value] line of the input. *)
Lemma header_over_lines_hides_key_value_line :
  run ("[a" ++ nl ++ "x=1" ++ nl ++ "]") = Parsed [] 1 /\
  spec_kv_line_count
    (list_ascii_of_string ("[a" ++ nl ++ "x=1" ++ nl ++ "]")) = 1.
Proof. split; vm_compute; reflexivity. Qed.

(** ** The ranges of [cursor] and [line]

    [cursor] and [line] are C [int]s, modelled by [nat].  In a run from a
    loaded buffer the cursor never exceeds [buf.length + 1] and the line
    counter never exceeds the cursor by more than one, so on a buffer of
    fewer than [2^31 - 2] bytes no increment overflows. *)

Lemma take_while_length_le (p : ascii -> bool) l :
  List.length (take_while p l)
  + match drop_while p l with [] => 0 | _ :: _ => 1 end
  <= List.length l.
Proof.
  pose proof (take_drop_while_length p l) as H.
  destruct (drop_while p l); simpl in *; lia.
Qed.

Lemma parse_ini_step_cursor_bound s s' :
  in_bounds s = true ->
  parse_ini_step s = Ok s' ->
  cursor s' <= List.length (buf s) + 1 /\ line s' <= line s + 1.
Proof.
  intros Hb. pose proof Hb as Hlt. apply in_bounds_true in Hlt.
  pose proof (suffix_length s) as Hlen. unfold remaining in Hlen.
  unfold parse_ini_step, dispatch.
  destruct (Ascii.eqb _ CR).
  { destruct (_ && _); intros H; injection H as <-; simpl; lia. }
  destruct (Ascii.eqb _ LF); [intros H; injection H as <-; simpl; lia|].
  destruct (is_blank _); [intros H; injection H as <-; simpl; lia|].
  destruct (Ascii.eqb _ SEMI).
  { intros H. injection H as <-. rewrite discard_comment_spec. simpl.
    pose proof (take_while_length_le not_eol (suffix s)). lia. }
  destruct (Ascii.eqb _ LBRACKET).
  - destruct (parse_section_header s) as [s0| |] eqn:H0; try discriminate.
    intros H. injection H as <-.
    apply parse_section_header_Ok_inv in H0 as (name & tail & Hs & _ & ->).
    apply (f_equal (@List.length ascii)) in Hs.
    rewrite length_skipn, length_app in Hs. simpl in *. lia.
  - destruct (parse_kv s) as [s0| |] eqn:H0; try discriminate.
    intros H. injection H as <-.
    apply parse_kv_Ok_inv in H0 as (pre & r2 & Hs & _ & _ & _ & ->).
    rewrite Hs, length_app in Hlen. simpl in *. unfold kv_end.
    pose proof (take_while_length_le not_eol r2). lia.
Qed.

Lemma steps_bounds s s' :
  steps s s' ->
  cursor s <= List.length (buf s) + 1 ->
  cursor s' <= List.length (buf s) + 1 /\
  line s' + cursor s <= line s + cursor s'.
Proof.
  induction 1 as [s|s s1 s2 Hb Hs _ IH]; intros Hc; [split; lia|].
  destruct (parse_ini_step_cursor_bound s s1 Hb Hs) as [Hc1 Hl1].
  destruct (parse_ini_step_progress s s1 Hs) as [Hbuf Hlt].
  rewrite Hbuf in IH. destruct (IH Hc1) as [IH1 IH2]. split; lia.
Qed.

Lemma loaded_run_bounds b s :
  steps (load b) s ->
  cursor s <= List.length b + 1 /\ line s <= List.length b + 2.
Proof.
  intros H. destruct (steps_bounds (load b) s H) as [H1 H2]; simpl in *; lia.
Qed.

(** * Further properties of the code *)

(** ** The two skipping loops *)

Lemma byte_at_suffix s i : nth i (suffix s) NUL = byte_at s (cursor s + i).
Proof. unfold suffix, byte_at. apply nth_skipn. Qed.

(** Where a scan with test [p] from the cursor stops: at the first byte that
    fails [p], or at the end of the buffer. *)
Lemma scan_stops (p : ascii -> bool) s :
  let n := cursor s + List.length (take_while p (suffix s)) in
  (forall i, cursor s <= i < n -> p (byte_at s i) = true) /\
  (n < List.length (buf s) -> p (byte_at s n) = false) /\
  (cursor s <= List.length (buf s) -> n <= List.length (buf s)).
Proof.
  cbv zeta.
  pose proof (take_drop_while p (suffix s)) as Hsplit.
  pose proof (take_while_forallb p (suffix s)) as Hall.
  pose proof (take_drop_while_length p (suffix s)) as Hlen.
  rewrite suffix_length in Hlen. unfold remaining in Hlen.
  set (tw := take_while p (suffix s)) in *.
  split; [|split].
  - intros i [Hlo Hhi].
    replace i with (cursor s + (i - cursor s)) by lia.
    rewrite <- byte_at_suffix, <- Hsplit, app_nth1 by lia.
    rewrite forallb_forall in Hall. apply Hall, nth_In. lia.
  - intros Hn.
    destruct (drop_while p (suffix s)) as [|x t] eqn:Hd;
      [simpl in Hlen; lia|].
    rewrite <- byte_at_suffix, <- Hsplit, nth_middle.
    exact (drop_while_head p _ x t Hd).
  - lia.
Qed.

(** X1: [discard_whitespace] moves the cursor, and nothing else, over the
    spaces and tabs at the cursor: every byte it steps over is a space or a
    tab, and it stops on the first byte that is neither, which it leaves to
    the caller, or at the end of the buffer. *)
Theorem discard_whitespace_stops_at_first_nonblank ini :
  exists n,
    discard_whitespace ini = set_cursor n ini /\
    cursor ini <= n /\
    (forall i, cursor ini <= i < n -> is_blank (byte_at ini i) = true) /\
    (n < List.length (buf ini) -> is_blank (byte_at ini n) = false) /\
    (cursor ini <= List.length (buf ini) -> n <= List.length (buf ini)).
Proof.
  exists (cursor ini + List.length (take_while is_blank (suffix ini))).
  split; [apply discard_whitespace_spec|]. split; [lia|].
  apply (scan_stops is_blank ini).
Qed.

(** X2: [discard_comment] moves the cursor, and nothing else, to the first
    [\r] or [\n] at or after the cursor, which it does not step over, or to
    the end of the buffer when the comment is the last line. *)
Theorem discard_comment_stops_at_line_end ini :
  exists n,
    discard_comment ini = set_cursor n ini /\
    cursor ini <= n /\
    (forall i, cursor ini <= i < n -> is_eol (byte_at ini i) = false) /\
    (n < List.length (buf ini) -> is_eol (byte_at ini n) = true) /\
    (cursor ini <= List.length (buf ini) -> n <= List.length (buf ini)).
Proof.
  exists (cursor ini + List.length (take_while not_eol (suffix ini))).
  split; [apply discard_comment_spec|]. split; [lia|].
  destruct (scan_stops not_eol ini) as (H1 & H2 & H3).
  split; [|split; [|exact H3]].
  - intros i Hi. apply negb_true_iff. exact (H1 i Hi).
  - intros Hn. apply negb_false_iff. exact (H2 Hn).
Qed.

(** ** Single iterations *)

Lemma step_blank s :
  is_blank (byte_at s (cursor s)) = true ->
  parse_ini_step s = Ok (incr_cursor s).
Proof. intros H. unfold parse_ini_step. now rewrite (dispatch_blank s H). Qed.

Lemma step_lf s :
  byte_at s (cursor s) = LF ->
  parse_ini_step s = Ok (incr_cursor (incr_line s)).
Proof. intros H. unfold parse_ini_step. now rewrite (dispatch_lf s H). Qed.

Lemma step_cr_before_lf s :
  byte_at s (cursor s) = CR ->
  in_bounds (incr_cursor s) = true ->
  byte_at s (cursor s + 1) = LF ->
  parse_ini_step s = Ok (incr_cursor s).
Proof.
  intros Hcr Hb Hlf. unfold parse_ini_step, dispatch. rewrite Hcr, Hlf.
  change (Ascii.eqb CR CR) with true. change (Ascii.eqb LF LF) with true.
  apply in_bounds_true in Hb. simpl in Hb.
  replace (cursor s <? List.length (buf s) - 1) with true
    by (symmetry; apply Nat.ltb_lt; lia).
  reflexivity.
Qed.

Lemma step_cr_alone s :
  byte_at s (cursor s) = CR ->
  in_bounds (incr_cursor s) = false \/ byte_at s (cursor s + 1) <> LF ->
  parse_ini_step s = Ok (incr_cursor (incr_line s)).
Proof.
  intros Hcr H. unfold parse_ini_step, dispatch. rewrite Hcr.
  change (Ascii.eqb CR CR) with true. cbv iota.
  replace ((cursor s <? List.length (buf s) - 1)
           && Ascii.eqb (byte_at s (cursor s + 1)) LF) with false;
    [reflexivity|].
  symmetry. apply andb_false_iff. destruct H as [H|H].
  - left. apply in_bounds_false in H. simpl in H. apply Nat.ltb_ge. lia.
  - right. destruct (Ascii.eqb _ LF) eqn:E; [|reflexivity].
    apply Ascii.eqb_eq in E. contradiction.
Qed.

Lemma step_comment s :
  byte_at s (cursor s) = SEMI ->
  parse_ini_step s = Ok (incr_cursor (discard_comment s)).
Proof.
  intros H. unfold parse_ini_step. now rewrite (dispatch_comment s H).
Qed.

(** X3: a comment takes the first byte of its line terminator with it.  The
    iteration that dispatches the [;] ends one byte past the [\r] or [\n]
    that ends the comment, with the line counter as it was: the terminator is
    never dispatched, so a comment line that ends with [\n] or a lone [\r] is
    not counted as a line.  Only after [\r\n] is the line counted, by the
    [\n] that the next iteration dispatches. *)
Theorem comment_takes_its_terminator s text t rest :
  suffix s = SEMI :: text ++ t :: rest ->
  forallb not_eol text = true ->
  is_eol t = true ->
  exists s1,
    parse_ini_step s = Ok s1 /\
    cursor s1 = cursor s + List.length text + 2 /\
    line s1 = line s /\ section s1 = section s /\
    properties s1 = properties s /\
    parse_ini s = parse_ini s1 /\
    (forall rest', rest = LF :: rest' ->
       exists s2, parse_ini_step s1 = Ok s2 /\ line s2 = line s + 1 /\
                  cursor s2 = cursor s + List.length text + 3).
Proof.
  intros Hs Ht Hterm.
  destruct (suffix_head s SEMI _ Hs) as (Hsemi & _ & Hb).
  assert (Hnt : not_eol t = false) by (unfold not_eol; now rewrite Hterm).
  assert (Hstep : parse_ini_step s = Ok (incr_cursor (discard_comment s)))
    by now apply step_comment.
  assert (Hc : cursor (incr_cursor (discard_comment s))
               = cursor s + List.length text + 2).
  { rewrite discard_comment_spec, Hs.
    change (SEMI :: text ++ t :: rest) with ((SEMI :: text) ++ t :: rest).
    rewrite (take_while_stop not_eol (SEMI :: text) t rest);
      [|simpl; exact Ht|exact Hnt].
    simpl. lia. }
  exists (incr_cursor (discard_comment s)).
  split; [exact Hstep|]. split; [exact Hc|].
  rewrite discard_comment_spec at 1 2 3. repeat (split; [reflexivity|]).
  split.
  - rewrite (parse_ini_unfold s), Hb, Hstep. reflexivity.
  - intros rest' ->.
    assert (Hs1 : suffix (incr_cursor (discard_comment s)) = LF :: rest').
    { apply (suffix_moved s _ (SEMI :: text ++ [t]) (LF :: rest')).
      - rewrite Hs. simpl. now rewrite <- app_assoc.
      - rewrite discard_comment_spec. reflexivity.
      - rewrite Hc. simpl. rewrite length_app. simpl. lia. }
    destruct (suffix_head _ LF rest' Hs1) as (Hlf & _ & _).
    eexists. split; [apply step_lf; exact Hlf|].
    split.
    + rewrite discard_comment_spec. reflexivity.
    + change (cursor (incr_cursor (discard_comment s)) + 1
              = cursor s + List.length text + 3).
      rewrite Hc. lia.
Qed.

Lemma comment_takes_its_terminator_witness :
  run ("; note" ++ nl ++ "[x") = Failed UnterminatedSection 1 [] /\
  exists s1,
    parse_ini_step (load (list_ascii_of_string ("; note" ++ nl ++ "[x")))
    = Ok s1 /\
    cursor s1 = 7 /\ line s1 = 1.
Proof.
  split; [vm_compute; reflexivity|].
  destruct (comment_takes_its_terminator
              (load (list_ascii_of_string ("; note" ++ nl ++ "[x")))
              (list_ascii_of_string " note") LF (list_ascii_of_string "[x")
              eq_refl eq_refl eq_refl)
    as (s1 & Hstep & Hc & Hl & _).
  exists s1. split; [exact Hstep|]. split; [exact Hc | exact Hl].
Defined.

(** ** Counting the lines of a text without content *)

Lemma parse_ini_after_step s s1 :
  in_bounds s = true -> parse_ini_step s = Ok s1 ->
  parse_ini s = parse_ini s1.
Proof. intros Hb Hs. now rewrite (parse_ini_unfold s), Hb, Hs. Qed.

Lemma spec_lines_nonempty l : spec_lines l <> [].
Proof.
  destruct l as [|c t]; [discriminate|]. cbn [spec_lines].
  destruct (is_eol c); [discriminate|].
  destruct (spec_lines t); discriminate.
Qed.

Lemma spec_lines_cons_other c t :
  is_eol c = false ->
  List.length (spec_lines (c :: t)) = List.length (spec_lines t).
Proof.
  intros H. cbn [spec_lines]. rewrite H.
  pose proof (spec_lines_nonempty t).
  destruct (spec_lines t); [contradiction | reflexivity].
Qed.

Lemma space_text_run n : forall b,
  List.length b <= n ->
  forallb is_space b = true ->
  forall s, suffix s = b ->
  exists s',
    parse_ini s = Ok s' /\
    properties s' = properties s /\ section s' = section s /\
    line s' + 1 = line s + List.length (spec_lines b).
Proof.
  induction n as [|n IH]; intros b Hn Hsp s Hs.
  { destruct b; [|simpl in Hn; lia].
    exists s. rewrite (parse_ini_at_end s Hs). simpl. repeat split; lia. }
  destruct b as [|c t].
  { exists s. rewrite (parse_ini_at_end s Hs). simpl. repeat split; lia. }
  simpl in Hn, Hsp. apply andb_true_iff in Hsp as [Hc Ht].
  destruct (suffix_head s c t Hs) as (Hbyte & Hs1 & Hb).
  destruct (is_blank c) eqn:Eb.
  { destruct (IH t ltac:(lia) Ht (incr_cursor s) Hs1)
      as (s' & Hp & Hprops & Hsec & Hline).
    exists s'.
    rewrite (parse_ini_after_step s (incr_cursor s) Hb)
      by (apply step_blank; now rewrite Hbyte).
    rewrite (spec_lines_cons_other c t (blank_not_eol c Eb)).
    repeat split; assumption. }
  unfold is_space in Hc. rewrite Eb in Hc. simpl in Hc.
  destruct (Ascii.eqb c CR) eqn:Ecr.
  - apply Ascii.eqb_eq in Ecr. rewrite Ecr in *. clear c Ecr.
    destruct t as [|c' t'].
    + destruct (IH [] ltac:(simpl; lia) eq_refl (incr_cursor (incr_line s)) Hs1)
        as (s' & Hp & Hprops & Hsec & Hline).
      exists s'.
      rewrite (parse_ini_after_step s (incr_cursor (incr_line s)) Hb).
      * repeat split; try assumption. simpl in *. lia.
      * apply step_cr_alone; [exact Hbyte|]. left.
        now apply suffix_empty.
    + destruct (suffix_head (incr_cursor s) c' t' Hs1) as (Hnext & Hs2 & Hb1).
      change (byte_at (incr_cursor s) (cursor (incr_cursor s)))
        with (byte_at s (cursor s + 1)) in Hnext.
      destruct (Ascii.eqb c' LF) eqn:Elf.
      * apply Ascii.eqb_eq in Elf. rewrite Elf in *. clear c' Elf.
        simpl in Ht, Hn.
        destruct (IH t' ltac:(lia) Ht (incr_cursor (incr_line (incr_cursor s))) Hs2)
          as (s' & Hp & Hprops & Hsec & Hline).
        exists s'.
        rewrite (parse_ini_after_step s (incr_cursor s) Hb)
          by now apply step_cr_before_lf.
        rewrite (parse_ini_after_step (incr_cursor s)
                   (incr_cursor (incr_line (incr_cursor s))) Hb1)
          by (apply step_lf; exact Hnext).
        repeat split; try assumption.
        change (spec_lines (CR :: LF :: t')) with ([] :: spec_lines t').
        simpl in *. lia.
      * destruct (IH (c' :: t') ltac:(simpl in *; lia) Ht
                    (incr_cursor (incr_line s)) Hs1)
          as (s' & Hp & Hprops & Hsec & Hline).
        exists s'.
        rewrite (parse_ini_after_step s (incr_cursor (incr_line s)) Hb).
        -- repeat split; try assumption.
           replace (spec_lines (CR :: c' :: t'))
             with ([] :: spec_lines (c' :: t'))
             by (cbn [spec_lines]; simpl; now rewrite Elf).
           simpl in *. lia.
        -- apply step_cr_alone; [exact Hbyte|]. right. rewrite Hnext.
           intros ->. now rewrite Ascii.eqb_refl in Elf.
  - unfold is_eol in Hc. rewrite Ecr in Hc. simpl in Hc.
    apply Ascii.eqb_eq in Hc. rewrite Hc in *. clear c Hc Ecr.
    destruct (IH t ltac:(lia) Ht (incr_cursor (incr_line s)) Hs1)
      as (s' & Hp & Hprops & Hsec & Hline).
    exists s'.
    rewrite (parse_ini_after_step s (incr_cursor (incr_line s)) Hb)
      by (apply step_lf; exact Hbyte).
    repeat split; try assumption.
    change (spec_lines (LF :: t)) with ([] :: spec_lines t).
    simpl in *. lia.
Qed.

(** X4: on a buffer of spaces, tabs and line terminators only, the parse
    succeeds without a record and the line counter ends as the number of
    lines of the text: [\r\n] counts once, a lone [\r] counts once, a [\n]
    counts once. *)
Theorem space_text_line_count b :
  forallb is_space b = true ->
  exists s,
    parse_ini (load b) = Ok s /\
    properties s = [] /\
    line s = List.length (spec_lines b).
Proof.
  intros H.
  destruct (space_text_run (List.length b) b (Nat.le_refl _) H (load b) eq_refl)
    as (s & Hp & Hprops & _ & Hline).
  exists s. split; [exact Hp|]. split; [exact Hprops|].
  simpl in Hline. lia.
Qed.

Lemma space_text_line_count_witness :
  let b := list_ascii_of_string (" " ++ crlf ++ cr ++ "  " ++ nl ++ nl ++ cr) in
  forallb is_space b = true /\
  List.length (spec_lines b) = 6 /\
  exists s, parse_ini (load b) = Ok s /\ properties s = [] /\
            line s = List.length (spec_lines b).
Proof.
  cbv zeta. split; [reflexivity|]. split; [reflexivity|].
  apply (space_text_line_count
           (list_ascii_of_string
              (" " ++ crlf ++ cr ++ "  " ++ nl ++ nl ++ cr))).
  reflexivity.
Defined.

(** ** Runs with their effect *)

Lemma lands_refl s : lands s s 0 0 (section s) (properties s).
Proof. unfold lands. repeat split; try lia. apply steps_refl. Qed.

Lemma lands_one s s1 n k sec props :
  in_bounds s = true -> parse_ini_step s = Ok s1 ->
  buf s1 = buf s -> cursor s1 = cursor s + n -> line s1 = line s + k ->
  section s1 = sec -> properties s1 = props ->
  lands s s1 n k sec props.
Proof.
  intros Hb Hs. unfold lands. repeat split; try assumption.
  eapply steps_next; [exact Hb | exact Hs | apply steps_refl].
Qed.

Lemma lands_trans s s1 s2 n1 k1 sec1 p1 n2 k2 sec2 p2 :
  lands s s1 n1 k1 sec1 p1 -> lands s1 s2 n2 k2 sec2 p2 ->
  lands s s2 (n1 + n2) (k1 + k2) sec2 p2.
Proof.
  intros (H1 & Hb1 & Hc1 & Hl1 & _ & _) (H2 & Hb2 & Hc2 & Hl2 & Hs2 & Hp2).
  unfold lands. repeat split; try assumption; try congruence; try lia.
  eapply steps_trans; eauto.
Qed.

Lemma lands_suffix s s1 l1 l2 k sec props :
  lands s s1 (List.length l1) k sec props ->
  suffix s = l1 ++ l2 -> suffix s1 = l2.
Proof.
  intros (_ & Hb & Hc & _) Hs. now apply (suffix_moved s s1 l1 l2).
Qed.

Lemma lands_blanks bl : forall s rest,
  suffix s = bl ++ rest -> forallb is_blank bl = true ->
  exists s1, lands s s1 (List.length bl) 0 (section s) (properties s).
Proof.
  induction bl as [|x bl IH]; intros s rest Hs Hb.
  - exists s. apply lands_refl.
  - simpl in Hb. apply andb_true_iff in Hb as [Hx Hbl].
    destruct (suffix_head s x (bl ++ rest) Hs) as (Hbyte & Hs1 & Hin).
    destruct (IH (incr_cursor s) rest Hs1 Hbl) as (s1 & H1).
    exists s1.
    apply (lands_trans s (incr_cursor s) s1 1 0 (section s) (properties s)
             (List.length bl) 0 (section s) (properties s));
      [|exact H1].
    apply lands_one; try reflexivity; [exact Hin | | simpl; lia].
    apply step_blank. now rewrite Hbyte.
Qed.

Lemma lands_crlf s rest :
  suffix s = CR :: LF :: rest ->
  exists s1, lands s s1 2 1 (section s) (properties s).
Proof.
  intros Hs.
  destruct (suffix_head s CR (LF :: rest) Hs) as (Hcr & Hs1 & Hb).
  destruct (suffix_head (incr_cursor s) LF rest Hs1) as (Hlf & _ & Hb1).
  exists (incr_cursor (incr_line (incr_cursor s))).
  apply (lands_trans s (incr_cursor s) _ 1 0 (section s) (properties s)
           1 1 (section s) (properties s)).
  - apply lands_one; try reflexivity; [exact Hb | | simpl; lia].
    now apply step_cr_before_lf.
  - apply lands_one; try reflexivity; [exact Hb1 |].
    now apply step_lf.
Qed.

Lemma lands_comment s text rest :
  suffix s = SEMI :: text ++ CR :: LF :: rest ->
  forallb not_eol text = true ->
  exists s1,
    lands s s1 (List.length text + 3) 1 (section s) (properties s).
Proof.
  intros Hs Ht.
  destruct (suffix_head s SEMI _ Hs) as (Hsemi & _ & Hb).
  set (s0 := incr_cursor (discard_comment s)).
  assert (Hc0 : cursor s0 = cursor s + (List.length text + 2)).
  { unfold s0. rewrite discard_comment_spec, Hs.
    change (SEMI :: text ++ CR :: LF :: rest)
      with ((SEMI :: text) ++ CR :: LF :: rest).
    rewrite (take_while_stop not_eol (SEMI :: text) CR (LF :: rest));
      [|simpl; exact Ht|reflexivity].
    simpl. lia. }
  assert (H0 : lands s s0 (List.length text + 2) 0 (section s) (properties s)).
  { apply lands_one; try assumption.
    - now apply step_comment.
    - unfold s0. rewrite discard_comment_spec. reflexivity.
    - unfold s0. rewrite discard_comment_spec. simpl. lia.
    - unfold s0. rewrite discard_comment_spec. reflexivity.
    - unfold s0. rewrite discard_comment_spec. reflexivity. }
  assert (Hs0 : suffix s0 = LF :: rest).
  { apply (suffix_moved s s0 (SEMI :: text ++ [CR]) (LF :: rest)).
    - rewrite Hs. simpl. now rewrite <- app_assoc.
    - now destruct H0 as (_ & ? & _).
    - rewrite Hc0. simpl. rewrite length_app. simpl. lia. }
  destruct (suffix_head s0 LF rest Hs0) as (Hlf & _ & Hb0).
  destruct H0 as (Hrun & Hbuf & _ & Hl0 & Hsec0 & Hp0).
  exists (incr_cursor (incr_line s0)). unfold lands. repeat split.
  - eapply steps_trans; [exact Hrun|].
    eapply steps_next; [exact Hb0 | now apply step_lf | apply steps_refl].
  - exact Hbuf.
  - change (cursor s0 + 1 = cursor s + (List.length text + 3)). lia.
  - change (line s0 + 1 = line s + 1). lia.
  - exact Hsec0.
  - exact Hp0.
Qed.

Lemma lands_header s name rest :
  suffix s = LBRACKET :: name ++ RBRACKET :: rest ->
  forallb not_rbracket name = true ->
  exists s1,
    lands s s1 (List.length name + 2) 0
      {| data := Some (cursor s + 1); length := List.length name |}
      (properties s).
Proof.
  intros Hs Hn.
  destruct (suffix_head s LBRACKET _ Hs) as (Hlb & Hs1 & Hb).
  eexists. apply lands_one; [exact Hb | | | | | |].
  - unfold parse_ini_step. rewrite (dispatch_header s Hlb).
    rewrite parse_section_header_spec. cbv zeta.
    change (skipn (cursor s + 1) (buf s)) with (suffix (incr_cursor s)).
    rewrite Hs1.
    rewrite (take_while_stop not_rbracket name RBRACKET _ Hn eq_refl).
    rewrite (drop_while_stop not_rbracket name RBRACKET _ Hn eq_refl).
    reflexivity.
  - reflexivity.
  - simpl. lia.
  - simpl. lia.
  - reflexivity.
  - reflexivity.
Qed.

Lemma lands_key_value s pre v rest :
  suffix s = pre ++ EQUALS :: v ++ CR :: LF :: rest ->
  is_kv_start (byte_at s (cursor s)) = true ->
  forallb key_byte pre = true ->
  forallb not_eol v = true ->
  trim pre <> [] -> trim v <> [] ->
  exists s1,
    lands s s1 (List.length pre + 1 + List.length v + 2) 0 (section s)
      (properties s ++ [kv_record s pre (v ++ CR :: LF :: rest)]).
Proof.
  intros Hs Hstart Hp Hv Hk Hval.
  pose proof (parse_kv_spec s pre (v ++ CR :: LF :: rest) Hs Hp) as Hkv.
  rewrite (take_while_stop not_eol v CR (LF :: rest) Hv eq_refl) in Hkv.
  assert (Hend : kv_end s pre (v ++ CR :: LF :: rest)
                 = cursor s + List.length pre + 1 + List.length v + 1).
  { unfold kv_end.
    rewrite (take_while_stop not_eol v CR (LF :: rest) Hv eq_refl).
    rewrite (drop_while_stop not_eol v CR (LF :: rest) Hv eq_refl).
    reflexivity. }
  destruct (trim v) as [|v0 vs]; [congruence|].
  destruct (trim pre) as [|k0 ks]; [congruence|].
  assert (Hb : in_bounds s = true).
  { destruct (app_nonempty_head pre EQUALS (v ++ CR :: LF :: rest))
      as (y & u & Hyu).
    rewrite Hyu in Hs. exact (suffix_nonempty_in_bounds s y u Hs). }
  eexists. apply lands_one; [exact Hb | | | | | |].
  - unfold parse_ini_step. rewrite (dispatch_kv s Hstart), Hkv. reflexivity.
  - reflexivity.
  - cbn [cursor incr_cursor set_cursor push_back]. rewrite Hend. lia.
  - simpl. lia.
  - reflexivity.
  - reflexivity.
Qed.

(** ** The lines of a well-formed text, one by one *)

Lemma scan_past_blanks (q : ascii -> bool) l :
  (forall c, is_blank c = true -> q c = true) ->
  take_while q l = take_while is_blank l ++ take_while q (lstrip l) /\
  drop_while q (lstrip l) = drop_while q l.
Proof.
  intros Hq. unfold lstrip. induction l as [|x t [IH1 IH2]]; [now split|].
  simpl. destruct (is_blank x) eqn:Eb.
  - rewrite (Hq x Eb). simpl. rewrite IH1. now split.
  - now split.
Qed.

Lemma trim_app_blank bl m :
  forallb is_blank bl = true -> trim (bl ++ m) = trim m.
Proof.
  intros H. unfold trim, lstrip.
  now destruct (forallb_app_scan is_blank bl m H) as [_ ->].
Qed.

Lemma blank_not_equals_true c : is_blank c = true -> not_equals c = true.
Proof. intros H. unfold not_equals. now rewrite (blank_not_equals c H). Qed.

Lemma spec_key_lstrip l :
  spec_key l = trim (take_while not_equals (lstrip l)).
Proof.
  unfold spec_key.
  destruct (scan_past_blanks not_equals l blank_not_equals_true) as [-> _].
  apply trim_app_blank, take_while_forallb.
Qed.

Lemma spec_value_lstrip l :
  spec_value l = trim (tl (drop_while not_equals (lstrip l))).
Proof.
  unfold spec_value.
  now destruct (scan_past_blanks not_equals l blank_not_equals_true) as [_ ->].
Qed.

Lemma key_value_split pre v :
  forallb key_byte pre = true ->
  take_while not_equals (pre ++ EQUALS :: v) = pre /\
  tl (drop_while not_equals (pre ++ EQUALS :: v)) = v.
Proof.
  intros Hp. pose proof (key_byte_not_equals pre Hp) as Hne.
  rewrite (take_while_stop not_equals pre EQUALS v Hne eq_refl).
  rewrite (drop_while_stop not_equals pre EQUALS v Hne eq_refl).
  now split.
Qed.

Lemma section_slice_bytes s name rest :
  suffix s = LBRACKET :: name ++ RBRACKET :: rest ->
  slice_bytes (buf s)
    {| data := Some (cursor s + 1); length := List.length name |} = name.
Proof.
  intros Hs. destruct (suffix_head s LBRACKET _ Hs) as (_ & Hs1 & _).
  unfold slice_bytes. simpl.
  change (skipn (cursor s + 1) (buf s)) with (suffix (incr_cursor s)).
  rewrite Hs1, firstn_app, Nat.sub_diag, firstn_all. simpl.
  apply app_nil_r.
Qed.

(** The blanks at the start of a line, then the rest of the run. *)
Lemma line_run_join s s0 s1 l tail nb n k sec props :
  lands s s0 nb 0 (section s) (properties s) ->
  lands s0 s1 n k sec props ->
  nb + n = List.length l ->
  suffix s = l ++ tail ->
  steps s s1 /\ buf s1 = buf s /\ suffix s1 = tail /\
  line s1 = line s + k /\ section s1 = sec /\ properties s1 = props.
Proof.
  intros H0 H1 Hn Hs.
  pose proof (lands_trans _ _ _ _ _ _ _ _ _ _ _ H0 H1) as H.
  rewrite Hn in H. simpl in H.
  pose proof (lands_suffix s s1 l tail _ _ _ H Hs) as Hsuf.
  destruct H as (Hrun & Hb & _ & Hl & Hsec & Hp).
  repeat split; assumption.
Qed.

(** A line of a well-formed text, ended by [\r\n]: the run to the next line
    and what it does.  The terminator of a key/value line is not counted. *)
Lemma line_run s l rest :
  suffix s = l ++ CR :: LF :: rest ->
  well_formed_line l = true ->
  exists s1,
    steps s s1 /\ buf s1 = buf s /\ suffix s1 = rest /\
    line s1
    = line s + (if is_key_value (spec_classify l) then 0 else 1) /\
    line_effect s s1 l.
Proof.
  intros Hs Hwf.
  pose proof (take_drop_while is_blank l) as Hsplit.
  pose proof (take_drop_while_length is_blank l) as Hlen.
  fold (lstrip l) in Hsplit, Hlen.
  destruct (lands_blanks (take_while is_blank l) s
              (lstrip l ++ CR :: LF :: rest)) as (s0 & H0).
  { rewrite Hs, app_assoc. f_equal. symmetry. exact Hsplit. }
  { apply take_while_forallb. }
  assert (Hs0 : suffix s0 = lstrip l ++ CR :: LF :: rest).
  { apply (lands_suffix s s0 (take_while is_blank l) _ _ _ _ H0).
    rewrite Hs, app_assoc. f_equal. symmetry. exact Hsplit. }
  pose proof (spec_key_lstrip l) as Hkey.
  pose proof (spec_value_lstrip l) as Hval.
  assert (Hname : spec_section_name l = take_while not_rbracket (tl (lstrip l)))
    by reflexivity.
  replace (l ++ CR :: LF :: rest) with ((l ++ [CR; LF]) ++ rest) in Hs
    by (rewrite <- app_assoc; reflexivity).
  assert (Hlen2 : List.length (l ++ [CR; LF])
                  = List.length (take_while is_blank l)
                    + (List.length (lstrip l) + 2))
    by (rewrite length_app; simpl; lia).
  clear Hlen Hsplit.
  destruct H0 as (Hrun0 & Hbuf0 & Hc0 & Hl0 & Hsec0 & Hp0).
  assert (H0 : lands s s0 (List.length (take_while is_blank l)) 0
                 (section s) (properties s))
    by (unfold lands; repeat split; assumption).
  unfold line_effect.
  revert Hs0 Hkey Hval Hname Hlen2.
  destruct (well_formed_shape l Hwf)
    as [|text Ht|name after Hn Ha|c r pre v Hsplit Hstart Hp Hv Hk Hv'];
    intros Hs0 Hkey Hval Hname Hlen2; simpl.
  - destruct (lands_crlf s0 rest Hs0) as (s1 & H1).
    exists s1.
    destruct (line_run_join s s0 s1 _ rest _ _ _ _ _ H0 H1
                (eq_sym Hlen2) Hs)
      as (Hrun & Hb & Hsuf & Hl & Hsec & Hpr).
    repeat split; try assumption; congruence.
  - destruct (lands_comment s0 text rest Hs0 Ht) as (s1 & H1).
    exists s1.
    destruct (line_run_join s s0 s1 _ rest _ _ _ _ _ H0 H1
                ltac:(rewrite Hlen2; simpl; lia) Hs)
      as (Hrun & Hb & Hsuf & Hl & Hsec & Hpr).
    repeat split; try assumption; congruence.
  - simpl in Hs0. rewrite <- app_assoc in Hs0. simpl in Hs0.
    destruct (lands_header s0 name _ Hs0 Hn) as (s1 & H1).
    assert (Hs1 : suffix s1 = after ++ CR :: LF :: rest).
    { eapply (lands_suffix s0 s1 (LBRACKET :: name ++ [RBRACKET])).
      - replace (List.length (LBRACKET :: name ++ [RBRACKET]))
          with (List.length name + 2)
          by (simpl; rewrite length_app; simpl; lia).
        exact H1.
      - rewrite Hs0. simpl. now rewrite <- app_assoc. }
    destruct (lands_blanks after s1 _ Hs1 Ha) as (s2 & H2).
    pose proof (lands_suffix s1 s2 after _ _ _ _ H2 Hs1) as Hs2.
    destruct (lands_crlf s2 rest Hs2) as (s3 & H3).
    pose proof (lands_trans _ _ _ _ _ _ _ _ _ _ _ H1
                  (lands_trans _ _ _ _ _ _ _ _ _ _ _ H2 H3)) as H13.
    exists s3.
    destruct (line_run_join s s0 s3 _ rest _ _ _ _ _ H0 H13
                ltac:(rewrite Hlen2; simpl; rewrite length_app; simpl; lia)
                Hs)
      as (Hrun & Hb & Hsuf & Hl & Hsec & Hpr).
    repeat split; try assumption.
    + destruct H1 as (_ & _ & _ & _ & _ & Hp1).
      destruct H2 as (_ & _ & _ & _ & _ & Hp2).
      congruence.
    + destruct H1 as (_ & _ & _ & _ & Hsec1 & _).
      destruct H2 as (_ & _ & _ & _ & Hsec2 & _).
      rewrite Hsec, Hsec2, Hsec1, <- Hbuf0, Hname. simpl tl.
      rewrite (take_while_stop not_rbracket name RBRACKET after Hn eq_refl).
      exact (section_slice_bytes s0 name _ Hs0).
  - destruct (suffix_head s0 c _ Hs0) as (Hbyte & _ & _).
    rewrite Hsplit, <- app_assoc in Hs0. simpl in Hs0.
    destruct (lands_key_value s0 pre v rest Hs0
                ltac:(now rewrite Hbyte) Hp Hv Hk Hv') as (s1 & H1).
    exists s1.
    destruct (line_run_join s s0 s1 _ rest _ _ _ _ _ H0 H1
                ltac:(rewrite Hlen2, Hsplit; rewrite length_app; simpl; lia)
                Hs)
      as (Hrun & Hb & Hsuf & Hl & Hsec & Hpr).
    repeat split; try assumption; try congruence.
    exists (kv_record s0 pre (v ++ CR :: LF :: rest)).
    rewrite Hsplit in Hkey, Hval.
    destruct (key_value_split pre v Hp) as [Etw Edw].
    rewrite Etw in Hkey. rewrite Edw in Hval.
    split; [congruence|]. split; [exact Hsec0|].
    rewrite <- Hbuf0, Hkey, Hval. split.
    + exact (kv_record_key_bytes s0 pre _ Hs0).
    + rewrite (kv_record_value_bytes s0 pre _ Hs0).
      now rewrite (take_while_stop not_eol v CR (LF :: rest) Hv eq_refl).
Qed.

Lemma lands_comment_eof s text :
  suffix s = SEMI :: text ->
  forallb not_eol text = true ->
  exists s1, lands s s1 (List.length text + 2) 0 (section s) (properties s).
Proof.
  intros Hs Ht.
  destruct (suffix_head s SEMI text Hs) as (Hsemi & _ & Hb).
  exists (incr_cursor (discard_comment s)).
  apply lands_one; try assumption.
  - now apply step_comment.
  - rewrite discard_comment_spec. reflexivity.
  - rewrite discard_comment_spec, Hs.
    rewrite (take_while_all not_eol (SEMI :: text)); [|simpl; exact Ht].
    simpl. lia.
  - rewrite discard_comment_spec. simpl. lia.
  - rewrite discard_comment_spec. reflexivity.
  - rewrite discard_comment_spec. reflexivity.
Qed.

Lemma lands_key_value_eof s pre v :
  suffix s = pre ++ EQUALS :: v ->
  is_kv_start (byte_at s (cursor s)) = true ->
  forallb key_byte pre = true ->
  forallb not_eol v = true ->
  trim pre <> [] -> trim v <> [] ->
  exists s1,
    lands s s1 (List.length pre + 1 + List.length v + 1) 0 (section s)
      (properties s ++ [kv_record s pre v]).
Proof.
  intros Hs Hstart Hp Hv Hk Hval.
  pose proof (parse_kv_spec s pre v Hs Hp) as Hkv.
  rewrite (take_while_all not_eol v Hv) in Hkv.
  assert (Hend : kv_end s pre v
                 = cursor s + List.length pre + 1 + List.length v).
  { unfold kv_end.
    rewrite (take_while_all not_eol v Hv), (drop_while_all not_eol v Hv).
    lia. }
  destruct (trim v) as [|v0 vs]; [congruence|].
  destruct (trim pre) as [|k0 ks]; [congruence|].
  assert (Hb : in_bounds s = true).
  { destruct (app_nonempty_head pre EQUALS v) as (y & u & Hyu).
    rewrite Hyu in Hs. exact (suffix_nonempty_in_bounds s y u Hs). }
  eexists. apply lands_one; [exact Hb | | | | | |].
  - unfold parse_ini_step. rewrite (dispatch_kv s Hstart), Hkv. reflexivity.
  - reflexivity.
  - cbn [cursor incr_cursor set_cursor push_back]. rewrite Hend. lia.
  - simpl. lia.
  - reflexivity.
  - reflexivity.
Qed.

Lemma last_run_join s s0 s1 l nb n k sec props :
  lands s s0 nb 0 (section s) (properties s) ->
  lands s0 s1 n k sec props ->
  List.length l <= nb + n ->
  suffix s = l ->
  steps s s1 /\ buf s1 = buf s /\ in_bounds s1 = false /\
  line s1 = line s + k /\ section s1 = sec /\ properties s1 = props.
Proof.
  intros H0 H1 Hn Hs.
  pose proof (lands_trans _ _ _ _ _ _ _ _ _ _ _ H0 H1) as H.
  destruct H as (Hrun & Hb & Hc & Hl & Hsec & Hp).
  simpl in Hl. repeat split; try assumption.
  apply in_bounds_false. rewrite Hb, Hc.
  pose proof (suffix_length s) as Hlen. rewrite Hs in Hlen.
  unfold remaining in Hlen. lia.
Qed.

(** The last line of a well-formed text, without a terminator. *)
Lemma last_run s l :
  suffix s = l ->
  well_formed_line l = true ->
  exists s1,
    steps s s1 /\ buf s1 = buf s /\ in_bounds s1 = false /\
    line s1 = line s /\ line_effect s s1 l.
Proof.
  intros Hs Hwf.
  pose proof (take_drop_while is_blank l) as Hsplit.
  pose proof (take_drop_while_length is_blank l) as Hlen.
  fold (lstrip l) in Hsplit, Hlen.
  destruct (lands_blanks (take_while is_blank l) s (lstrip l)) as (s0 & H0).
  { rewrite Hs. symmetry. exact Hsplit. }
  { apply take_while_forallb. }
  assert (Hs0 : suffix s0 = lstrip l).
  { apply (lands_suffix s s0 (take_while is_blank l) _ _ _ _ H0).
    rewrite Hs. symmetry. exact Hsplit. }
  pose proof (spec_key_lstrip l) as Hkey.
  pose proof (spec_value_lstrip l) as Hval.
  assert (Hname : spec_section_name l = take_while not_rbracket (tl (lstrip l)))
    by reflexivity.
  clear Hsplit.
  destruct H0 as (Hrun0 & Hbuf0 & Hc0 & Hl0 & Hsec0 & Hp0).
  assert (H0 : lands s s0 (List.length (take_while is_blank l)) 0
                 (section s) (properties s))
    by (unfold lands; repeat split; assumption).
  unfold line_effect.
  revert Hs0 Hkey Hval Hname Hlen.
  destruct (well_formed_shape l Hwf)
    as [|text Ht|name after Hn Ha|c r pre v Hsplit Hstart Hp Hv Hk Hv'];
    intros Hs0 Hkey Hval Hname Hlen; simpl.
  - exists s0.
    destruct (last_run_join s s0 s0 l _ _ _ _ _ H0 (lands_refl s0)
                ltac:(simpl in Hlen; lia) Hs)
      as (Hrun & Hb & Hin & Hl & Hsec & Hpr).
    repeat split; try assumption; try congruence. lia.
  - destruct (lands_comment_eof s0 text Hs0 Ht) as (s1 & H1).
    exists s1.
    destruct (last_run_join s s0 s1 l _ _ _ _ _ H0 H1
                ltac:(simpl in Hlen; lia) Hs)
      as (Hrun & Hb & Hin & Hl & Hsec & Hpr).
    repeat split; try assumption; try congruence. lia.
  - destruct (lands_header s0 name _ Hs0 Hn) as (s1 & H1).
    assert (Hs1 : suffix s1 = after).
    { eapply (lands_suffix s0 s1 (LBRACKET :: name ++ [RBRACKET])).
      - replace (List.length (LBRACKET :: name ++ [RBRACKET]))
          with (List.length name + 2)
          by (simpl; rewrite length_app; simpl; lia).
        exact H1.
      - rewrite Hs0. simpl. now rewrite <- app_assoc. }
    rewrite <- (app_nil_r after) in Hs1.
    destruct (lands_blanks after s1 _ Hs1 Ha) as (s2 & H2).
    pose proof (lands_trans _ _ _ _ _ _ _ _ _ _ _ H1 H2) as H12.
    exists s2.
    destruct (last_run_join s s0 s2 l _ _ _ _ _ H0 H12
                ltac:(simpl in Hlen; rewrite length_app in Hlen;
                      simpl in Hlen; lia) Hs)
      as (Hrun & Hb & Hin & Hl & Hsec & Hpr).
    repeat split; try assumption; try lia.
    + destruct H1 as (_ & _ & _ & _ & _ & Hp1). congruence.
    + destruct H1 as (_ & _ & _ & _ & Hsec1 & _).
      rewrite Hsec, Hsec1, <- Hbuf0, Hname. simpl tl.
      rewrite (take_while_stop not_rbracket name RBRACKET after Hn eq_refl).
      exact (section_slice_bytes s0 name _ Hs0).
  - destruct (suffix_head s0 c _ Hs0) as (Hbyte & _ & _).
    rewrite Hsplit in Hs0.
    destruct (lands_key_value_eof s0 pre v Hs0
                ltac:(now rewrite Hbyte) Hp Hv Hk Hv') as (s1 & H1).
    exists s1.
    destruct (last_run_join s s0 s1 l _ _ _ _ _ H0 H1
                ltac:(rewrite Hsplit, length_app in Hlen;
                      simpl in Hlen; lia) Hs)
      as (Hrun & Hb & Hin & Hl & Hsec & Hpr).
    repeat split; try assumption; try congruence; try lia.
    exists (kv_record s0 pre v).
    rewrite Hsplit in Hkey, Hval.
    destruct (key_value_split pre v Hp) as [Etw Edw].
    rewrite Etw in Hkey. rewrite Edw in Hval.
    split; [congruence|]. split; [exact Hsec0|].
    rewrite <- Hbuf0, Hkey, Hval. split.
    + exact (kv_record_key_bytes s0 pre _ Hs0).
    + rewrite (kv_record_value_bytes s0 pre _ Hs0).
      now rewrite (take_while_all not_eol v Hv).
Qed.

(** ** Well-formed [\r\n] texts: the records and the line counter *)

Lemma spec_records_cons sec l ls :
  spec_records sec (l :: ls)
  = (if is_key_value (spec_classify l)
     then [(sec, spec_key l, spec_value l)] else [])
    ++ spec_records (section_after sec l) ls.
Proof.
  unfold section_after. simpl. destruct (spec_classify l); reflexivity.
Qed.

Lemma counted_lines_cons l ls :
  counted_lines (l :: ls)
  = (if is_key_value (spec_classify l) then 0 else 1) + counted_lines ls.
Proof.
  unfold counted_lines. simpl.
  destruct (is_key_value (spec_classify l)); reflexivity.
Qed.

Lemma counted_lines_complement ls :
  counted_lines ls
  + List.length (filter (fun l => is_key_value (spec_classify l)) ls)
  = List.length ls.
Proof.
  unfold counted_lines. induction ls as [|l ls IH]; [reflexivity|].
  simpl. destruct (is_key_value (spec_classify l)); simpl; lia.
Qed.

Lemma line_effect_records s s1 l sec :
  line_effect s s1 l ->
  slice_bytes (buf s) (section s) = sec ->
  map (kv_bytes (buf s)) (properties s1)
  = map (kv_bytes (buf s)) (properties s)
    ++ (if is_key_value (spec_classify l)
        then [(sec, spec_key l, spec_value l)] else []) /\
  slice_bytes (buf s) (section s1) = section_after sec l.
Proof.
  unfold line_effect, section_after. intros H Hsec.
  destruct (spec_classify l); simpl.
  - destruct H as [-> ->]. rewrite app_nil_r. now split.
  - destruct H as [-> ->]. rewrite app_nil_r. now split.
  - destruct H as [-> H]. rewrite app_nil_r. now split.
  - destruct H as (-> & kv & -> & Hk & Hkey & Hval).
    split; [|exact Hsec].
    rewrite map_app. simpl. f_equal. unfold kv_bytes.
    now rewrite Hk, Hsec, Hkey, Hval.
  - destruct H as [-> ->]. rewrite app_nil_r. now split.
Qed.

Lemma crlf_text_run ls last : forall s sec,
  suffix s = crlf_text ls last ->
  forallb well_formed_line ls = true ->
  well_formed_line last = true ->
  slice_bytes (buf s) (section s) = sec ->
  exists s',
    parse_ini s = Ok s' /\ buf s' = buf s /\
    map (kv_bytes (buf s)) (properties s')
    = map (kv_bytes (buf s)) (properties s)
      ++ spec_records sec (ls ++ [last]) /\
    line s' = line s + counted_lines ls.
Proof.
  induction ls as [|l ls IH]; intros s sec Hs Hwf Hlast Hsec.
  - destruct (last_run s last Hs Hlast) as (s1 & Hrun & Hb & Hin & Hl & He).
    destruct (line_effect_records s s1 last sec He Hsec) as [Hrec _].
    exists s1. rewrite (steps_parse_ini s s1 Hrun), parse_ini_unfold, Hin.
    split; [reflexivity|]. split; [exact Hb|]. split.
    + rewrite Hrec. change ([] ++ [last]) with [last].
      rewrite spec_records_cons. simpl spec_records.
      now rewrite app_nil_r.
    + unfold counted_lines. simpl. lia.
  - simpl in Hwf. apply andb_true_iff in Hwf as [Hwl Hwls].
    rewrite crlf_text_cons in Hs.
    destruct (line_run s l (crlf_text ls last) Hs Hwl)
      as (s1 & Hrun & Hb & Hs1 & Hl & He).
    destruct (line_effect_records s s1 l sec He Hsec) as [Hrec Hsec1].
    rewrite <- Hb in Hsec1.
    destruct (IH s1 (section_after sec l) Hs1 Hwls Hlast Hsec1)
      as (s' & Hparse & Hb' & Hrec' & Hl').
    rewrite Hb in Hrec'.
    exists s'. rewrite (steps_parse_ini s s1 Hrun).
    split; [exact Hparse|]. split; [congruence|]. split.
    + rewrite Hrec', Hrec, <- app_assoc.
      change ((l :: ls) ++ [last]) with (l :: (ls ++ [last])).
      now rewrite (spec_records_cons sec l).
    + rewrite Hl', Hl, counted_lines_cons. lia.
Qed.

(** ** Sections *)







(** X5: on a text made of lines ended by [\r\n], the last of which may come
    without its terminator, each of them blank, a comment, a section header
    closed on its line or a valid key/value line, what [main] writes is, line
    by line, what the text says: one [printf] for each key/value line, in
    the order of the file, with the name of the latest header line before it
    (empty before any header), the key and the value without the spaces and
    tabs around them, each of the three written up to its first NUL byte,
    when it has one. *)
Theorem crlf_text_output ls last :
  forallb well_formed_line ls = true ->
  well_formed_line last = true ->
  main_stdout (crlf_text ls last)
  = map printf_record (spec_records [] (spec_lines (crlf_text ls last))).
Proof.
  intros Hwf Hlast.
  destruct (crlf_text_run ls last (load (crlf_text ls last)) []
              eq_refl Hwf Hlast eq_refl) as (s & Hparse & _ & Hrec & _).
  unfold main_stdout. rewrite Hparse.
  rewrite (spec_lines_crlf_text ls last Hwf Hlast).
  simpl in Hrec. rewrite <- Hrec, map_map. reflexivity.
Qed.

Lemma crlf_text_output_witness :
  let ls := map list_ascii_of_string
              ["top = 1"; "; settings"; ""; "[server]";
               "  host = local host  "; "port=80=81"; " [db] "]%string
            ++ [list_ascii_of_string "k = a" ++ NUL :: list_ascii_of_string "b"]
  in
  let last := list_ascii_of_string "name = ini" in
  forallb well_formed_line ls = true /\
  well_formed_line last = true /\
  main_stdout (crlf_text ls last)
  = [("[] top = 1" ++ nl)%string;
     ("[server] host = local host" ++ nl)%string;
     ("[server] port = 80=81" ++ nl)%string;
     ("[db] k = a" ++ nl)%string;
     ("[db] name = ini" ++ nl)%string].
Proof.
  cbv zeta. split; [vm_compute; reflexivity|].
  split; [vm_compute; reflexivity|].
  etransitivity.
  - apply (crlf_text_output
             (map list_ascii_of_string
                ["top = 1"; "; settings"; ""; "[server]";
                 "  host = local host  "; "port=80=81"; " [db] "]%string
              ++ [list_ascii_of_string "k = a"
                  ++ NUL :: list_ascii_of_string "b"])
             (list_ascii_of_string "name = ini"));
      vm_compute; reflexivity.
  - vm_compute. reflexivity.
Defined.

(** X6: on such a text the line counter falls one behind for every
    key/value line ended by [\r\n]: at the end of the parse the counter and
    the number of those lines add up to the number of lines of the text.
    The [\r] of such a line is taken by the value loop and the [\n] by the
    [ini->cursor++] of the loop, so neither is dispatched. *)
Theorem crlf_text_line_counter ls last :
  forallb well_formed_line ls = true ->
  well_formed_line last = true ->
  exists s,
    parse_ini (load (crlf_text ls last)) = Ok s /\
    line s
    + List.length (filter (fun l => is_key_value (spec_classify l)) ls)
    = List.length (spec_lines (crlf_text ls last)).
Proof.
  intros Hwf Hlast.
  destruct (crlf_text_run ls last (load (crlf_text ls last)) []
              eq_refl Hwf Hlast eq_refl) as (s & Hparse & _ & _ & Hl).
  exists s. split; [exact Hparse|].
  rewrite (spec_lines_crlf_text ls last Hwf Hlast), length_app, Hl.
  pose proof (counted_lines_complement ls). simpl. lia.
Qed.

Lemma crlf_text_line_counter_witness :
  let ls := map list_ascii_of_string
              ["[server]"; "host = localhost"; "port = 8080"; "; end"]%string in
  forallb well_formed_line ls = true /\
  well_formed_line [] = true /\
  List.length (spec_lines (crlf_text ls [])) = 5 /\
  exists s, parse_ini (load (crlf_text ls [])) = Ok s /\ line s = 3.
Proof.
  cbv zeta. split; [vm_compute; reflexivity|].
  split; [vm_compute; reflexivity|]. split; [vm_compute; reflexivity|].
  destruct (crlf_text_line_counter
              (map list_ascii_of_string
                 ["[server]"; "host = localhost"; "port = 8080"; "; end"]%string)
              []) as (s & Hparse & Hl);
    [vm_compute; reflexivity | vm_compute; reflexivity |].
  exists s. split; [exact Hparse|].
  assert (E : List.length
                (filter (fun l => is_key_value (spec_classify l))
                   (map list_ascii_of_string
                      ["[server]"; "host = localhost"; "port = 8080";
                       "; end"]%string)) = 2)
    by (vm_compute; reflexivity).
  assert (E2 : List.length
                 (spec_lines
                    (crlf_text
                       (map list_ascii_of_string
                          ["[server]"; "host = localhost"; "port = 8080";
                           "; end"]%string) [])) = 5)
    by (vm_compute; reflexivity).
  rewrite E, E2 in Hl. lia.
Defined.

(** ** The layout of the records *)

Lemma trim_length_le l :
  List.length (take_while is_blank l) + List.length (trim l) <= List.length l.
Proof.
  pose proof (take_drop_while_length is_blank l) as H.
  destruct (rstrip_prefix (lstrip l)) as (bl & Hbl & _).
  apply (f_equal (@List.length ascii)) in Hbl. rewrite length_app in Hbl.
  unfold trim. unfold lstrip in *. lia.
Qed.

Lemma length_pos_nonempty (l : list ascii) : l <> [] -> 0 < List.length l.
Proof. destruct l; [congruence | simpl; lia]. Qed.

(** The slices of the record [parse_kv] pushes. *)
Lemma kv_record_layout s pre r2 :
  suffix s = pre ++ EQUALS :: r2 ->
  trim pre <> [] -> trim (take_while not_eol r2) <> [] ->
  exists ko vo,
    data (key (kv_record s pre r2)) = Some ko /\
    data (value (kv_record s pre r2)) = Some vo /\
    cursor s <= ko /\
    0 < length (key (kv_record s pre r2)) /\
    ko + length (key (kv_record s pre r2)) < vo /\
    0 < length (value (kv_record s pre r2)) /\
    vo + length (value (kv_record s pre r2)) <= kv_end s pre r2 /\
    kv_end s pre r2 <= List.length (buf s).
Proof.
  intros Hs Hk Hv.
  exists (cursor s + List.length (take_while is_blank pre)),
         (cursor s + List.length pre + 1
          + List.length (take_while is_blank r2)).
  unfold kv_record. cbn [key value data length].
  pose proof (trim_length_le pre) as Hkl.
  pose proof (length_pos_nonempty _ Hk) as Hkpos.
  pose proof (length_pos_nonempty _ Hv) as Hvpos.
  pose proof (trim_length_le (take_while not_eol r2)) as Hvl.
  assert (Hb : take_while is_blank (take_while not_eol r2)
               = take_while is_blank r2).
  { clear. induction r2 as [|x t IH]; [reflexivity|]. simpl.
    destruct (not_eol x) eqn:Ee; simpl.
    - destruct (is_blank x); [now rewrite IH | reflexivity].
    - destruct (is_blank x) eqn:Eb; [|reflexivity].
      unfold not_eol in Ee. now rewrite (blank_not_eol x Eb) in Ee. }
  rewrite Hb in Hvl.
  pose proof (take_while_length_le not_eol r2) as Hend.
  pose proof (suffix_length s) as Hlen. rewrite Hs, length_app in Hlen.
  simpl in Hlen. unfold remaining in Hlen. unfold kv_end.
  repeat split; try reflexivity; try lia.
Qed.

Lemma in_file_order_le l : forall lo hi hi',
  in_file_order lo l hi -> hi <= hi' -> in_file_order lo l hi'.
Proof.
  induction l as [|kv t IH]; simpl; intros lo hi hi' H Hle; [lia|].
  destruct H as (ko & vo & Hk & Hv & H1 & H2 & H).
  exists ko, vo. repeat split; auto. eapply IH; eauto.
Qed.

Lemma in_file_order_snoc l : forall lo hi hi' kv ko vo,
  in_file_order lo l hi ->
  data (key kv) = Some ko -> data (value kv) = Some vo ->
  hi <= ko -> ko <= vo -> vo + length (value kv) <= hi' ->
  in_file_order lo (l ++ [kv]) hi'.
Proof.
  induction l as [|kv0 t IH]; simpl; intros lo hi hi' kv ko vo H Hk Hv H1 H2 H3.
  - exists ko, vo. repeat split; auto. lia.
  - destruct H as (ko0 & vo0 & Hk0 & Hv0 & Ha & Hb & H).
    exists ko0, vo0. repeat split; auto. eapply IH; eauto.
Qed.

Lemma section_before_le sec hi hi' :
  section_before sec hi -> hi <= hi' -> section_before sec hi'.
Proof.
  intros [H | (o & Ho & Hpos & Hlt)] Hle; [now left|].
  right. exists o. repeat split; auto. lia.
Qed.

Lemma well_laid_load b : well_laid (load b).
Proof.
  unfold well_laid. simpl. split; [constructor|]. split; [lia|]. now left.
Qed.

Lemma well_laid_step s s' :
  parse_ini_step s = Ok s' -> well_laid s -> well_laid s'.
Proof.
  intros Hstep (Hall & Hord & Hsec). unfold well_laid.
  apply parse_ini_step_Ok_inv in Hstep
    as [(_ & n & Hn & Hs) | [(_ & s0 & H0 & ->) | (_ & s0 & H0 & ->)]].
  - assert (E : buf s' = buf s /\ properties s' = properties s /\
                section s' = section s /\ cursor s' = n)
      by (destruct Hs as [-> | ->]; now repeat split).
    destruct E as (-> & -> & -> & ->).
    split; [exact Hall|]. split.
    + eapply in_file_order_le; [exact Hord | lia].
    + eapply section_before_le; [exact Hsec | lia].
  - apply parse_section_header_Ok_inv in H0 as (name & tail & Hs & _ & ->).
    cbn [buf properties section cursor incr_cursor set_cursor set_section].
    apply (f_equal (@List.length ascii)) in Hs.
    rewrite length_skipn, length_app in Hs. simpl in Hs.
    split; [exact Hall|]. split.
    + eapply in_file_order_le; [exact Hord | lia].
    + right. exists (cursor s + 1). simpl. repeat split; lia.
  - apply parse_kv_Ok_inv in H0 as (pre & r2 & Hs & _ & Hk & Hv & ->).
    cbn [buf properties section cursor incr_cursor set_cursor push_back].
    destruct (kv_record_layout s pre r2 Hs Hk Hv)
      as (ko & vo & Eko & Evo & Hlo & Hkpos & Hkv & Hvpos & Hend & Hlen).
    split; [|split].
    + apply Forall_app. split; [exact Hall|].
      constructor; [|constructor].
      exists ko, vo. repeat split; auto; try lia.
      eapply section_before_le; [exact Hsec | lia].
    + eapply (in_file_order_snoc _ _ _ _ _ ko vo Hord Eko Evo); lia.
    + eapply section_before_le; [exact Hsec | lia].
Qed.

Lemma steps_well_laid s s' : steps s s' -> well_laid s -> well_laid s'.
Proof.
  induction 1 as [|s s1 s2 _ Hs _ IH]; intros H; [exact H|].
  apply IH. now apply (well_laid_step s s1).
Qed.

(** The invariant holds in the state a parse ends with, whether it returns
    0 or an error. *)
Lemma parse_ini_well_laid b r :
  parse_ini (load b) = r ->
  match r with
  | Ok s | Err _ _ s =>
      Forall (record_layout b) (properties s) /\
      in_file_order 0 (properties s) (List.length b)
  | Abort => True
  end.
Proof.
  intros H. destruct r as [s|d ln s|]; [| |exact I].
  - destruct (parse_ini_Ok_inv _ _ H) as [Hrun _].
    pose proof (steps_buf _ _ Hrun) as Hb. simpl in Hb.
    destruct (steps_well_laid _ _ Hrun (well_laid_load b)) as (Hall & Hord & _).
    rewrite Hb in *. split; [exact Hall|].
    eapply in_file_order_le; [exact Hord | lia].
  - destruct (parse_ini_Err_inv _ _ _ _ H) as (s1 & Hrun & _ & Hs).
    apply parse_ini_step_Err_inv in Hs as (_ & n & ->).
    pose proof (steps_buf _ _ Hrun) as Hb. simpl in Hb.
    destruct (steps_well_laid _ _ Hrun (well_laid_load b)) as (Hall & Hord & _).
    rewrite Hb in *. simpl. split; [exact Hall|].
    eapply in_file_order_le; [exact Hord | lia].
Qed.

(** X7: whatever the input, every record the parser holds when it returns,
    with 0 or with an error, has slices that lie in the buffer: a key and a
    value that are not null and not empty, the key before the value with at
    least one byte between them, the value ending within the buffer, and a
    section that is the null slice or a slice that starts past a first byte
    and ends before the key. *)
Theorem records_lie_in_buffer b :
  (forall s, parse_ini (load b) = Ok s ->
             Forall (record_layout b) (properties s)) /\
  (forall d ln s, parse_ini (load b) = Err d ln s ->
                  Forall (record_layout b) (properties s)).
Proof.
  split.
  - intros s H. exact (proj1 (parse_ini_well_laid b (Ok s) H)).
  - intros d ln s H. exact (proj1 (parse_ini_well_laid b (Err d ln s) H)).
Qed.

Lemma records_lie_in_buffer_witness :
  let b := list_ascii_of_string
             ("[s]" ++ nl ++ "k = v" ++ nl ++ nl ++ "z=1" ++ nl ++ "[x") in
  exists s,
    parse_ini (load b) = Err MissingEqualsEOF 2 s /\
    List.length (properties s) = 2 /\
    Forall (record_layout b) (properties s).
Proof.
  cbv zeta.
  assert (H : exists s,
            parse_ini (load (list_ascii_of_string
                               ("[s]" ++ nl ++ "k = v" ++ nl ++ nl ++ "z=1"
                                ++ nl ++ "[x")))
            = Err MissingEqualsEOF 2 s /\
            List.length (properties s) = 2)
    by (eexists; split; vm_compute; reflexivity).
  destruct H as (s & H & Hn). exists s.
  split; [exact H|]. split; [exact Hn|].
  exact (proj2 (records_lie_in_buffer _) _ _ _ H).
Defined.

(** X8: whatever the input, the records the parser holds when it returns lie
    in the buffer in the order in which they were pushed and do not overlap:
    every key starts at or after the end of the value of the record before
    it. *)
Theorem records_in_file_order b :
  (forall s, parse_ini (load b) = Ok s ->
             in_file_order 0 (properties s) (List.length b)) /\
  (forall d ln s, parse_ini (load b) = Err d ln s ->
                  in_file_order 0 (properties s) (List.length b)).
Proof.
  split.
  - intros s H. exact (proj2 (parse_ini_well_laid b (Ok s) H)).
  - intros d ln s H. exact (proj2 (parse_ini_well_laid b (Err d ln s) H)).
Qed.

Lemma records_in_file_order_witness :
  let b := list_ascii_of_string ("a=1" ++ crlf ++ "b = 2" ++ crlf) in
  exists s,
    parse_ini (load b) = Ok s /\
    List.length (properties s) = 2 /\
    in_file_order 0 (properties s) (List.length b).
Proof.
  cbv zeta.
  assert (H : exists s,
            parse_ini (load (list_ascii_of_string
                               ("a=1" ++ crlf ++ "b = 2" ++ crlf))) = Ok s /\
            List.length (properties s) = 2)
    by (eexists; split; vm_compute; reflexivity).
  destruct H as (s & H & Hn). exists s.
  split; [exact H|]. split; [exact Hn|].
  exact (proj1 (records_in_file_order _) _ H).
Defined.

(** ** Keys without [=] *)

(** X9: a key that is not followed by [=] on its line fails the whole parse.
    When the loop dispatches a byte to [parse_kv] and a line terminator comes
    before any [=], the parse returns [MissingEquals] with the current line
    and leaves the cursor on that terminator; when the buffer ends before any
    [=] or terminator, it returns [MissingEqualsEOF] with the current line and
    leaves the cursor at the end of the buffer. *)
Theorem key_without_equals_fails b s pre tail :
  steps (load b) s ->
  in_bounds s = true ->
  is_kv_start (byte_at s (cursor s)) = true ->
  suffix s = pre ++ tail ->
  forallb key_byte pre = true ->
  match tail with
  | [] =>
      parse_ini (load b)
      = Err MissingEqualsEOF (line s) (set_cursor (List.length b) s)
  | x :: _ =>
      is_eol x = true ->
      parse_ini (load b)
      = Err MissingEquals (line s)
          (set_cursor (cursor s + List.length pre) s)
  end.
Proof.
  intros Hrun Hb Hstart Hs Hp.
  pose proof (steps_buf _ _ Hrun) as Hbuf. simpl in Hbuf.
  rewrite (steps_parse_ini _ _ Hrun), parse_ini_unfold, Hb.
  unfold parse_ini_step. rewrite (dispatch_kv s Hstart).
  destruct tail as [|x r].
  - rewrite app_nil_r in Hs. rewrite <- Hs in Hp.
    rewrite (parse_kv_at_eof s Hp). f_equal. f_equal.
    apply in_bounds_true in Hb. rewrite Hbuf in *. lia.
  - intros Hx. now rewrite (parse_kv_at_eol s pre x r Hs Hp Hx).
Qed.

Lemma key_without_equals_fails_witness :
  let b := list_ascii_of_string ("key" ++ nl ++ "value") in
  parse_ini (load b) = Err MissingEquals 1 (set_cursor 3 (load b)) /\
  run ("key" ++ nl ++ "value") = Failed MissingEquals 1 [].
Proof.
  cbv zeta. split; [|vm_compute; reflexivity].
  exact (key_without_equals_fails
           (list_ascii_of_string ("key" ++ nl ++ "value"))
           (load (list_ascii_of_string ("key" ++ nl ++ "value")))
           (list_ascii_of_string "key")
           (list_ascii_of_string (nl ++ "value"))
           (steps_refl _) eq_refl eq_refl eq_refl eq_refl eq_refl).
Defined.

(** ** When the assertion fails *)

Lemma parse_ini_Abort_inv s :
  parse_ini s = Abort ->
  exists s1, steps s s1 /\ in_bounds s1 = true /\ parse_ini_step s1 = Abort.
Proof.
  remember (remaining s) as n eqn:Hn. revert s Hn.
  induction n as [n IH] using lt_wf_ind. intros s Hn.
  rewrite parse_ini_unfold. destruct (in_bounds s) eqn:Hb; [|discriminate].
  destruct (parse_ini_step s) as [s1| |] eqn:Hs; try discriminate.
  - intros H. destruct (parse_ini_step_progress s s1 Hs) as [Hbuf Hc].
    pose proof Hb as Hb'. apply in_bounds_true in Hb'.
    destruct (IH (remaining s1)) with (s := s1) as (s2 & H1 & H2 & H3); auto.
    { subst n. unfold remaining. rewrite Hbuf. lia. }
    exists s2. repeat split; auto. eapply steps_next; eauto.
  - intros _. exists s. repeat split; auto. constructor.
Qed.

Lemma trim_nil_blank l : trim l = [] -> forallb is_blank l = true.
Proof.
  intros H. destruct (forallb is_blank l) eqn:E; [reflexivity|].
  now apply trim_nonblank in E.
Qed.

Lemma trim_cons_nonblank l x t : trim l = x :: t -> forallb is_blank l = false.
Proof.
  intros H. destruct (forallb is_blank l) eqn:E; [|reflexivity].
  rewrite (trim_blank l E) in H. discriminate.
Qed.

(** An iteration aborts only on a [=] that some value follows on its line. *)
Lemma parse_ini_step_Abort_inv s :
  in_bounds s = true ->
  parse_ini_step s = Abort ->
  exists r2, suffix s = EQUALS :: r2 /\
             forallb is_blank (take_while not_eol r2) = false.
Proof.
  intros Hb. unfold parse_ini_step, dispatch.
  set (c := byte_at s (cursor s)).
  destruct (Ascii.eqb c CR); [destruct (_ && _); discriminate|].
  destruct (Ascii.eqb c LF); [discriminate|].
  destruct (is_blank c) eqn:Eb; [discriminate|].
  destruct (Ascii.eqb c SEMI); [discriminate|].
  destruct (Ascii.eqb c LBRACKET).
  { rewrite parse_section_header_spec. cbv zeta.
    destruct (drop_while _ _); discriminate. }
  destruct (parse_kv s) as [s0| |] eqn:Hkv; try discriminate. intros _.
  destruct (suffix_shape (suffix s))
    as [(pre & r2 & Hs & Hp) | [(pre & x & r & Hs & Hp & Hx) | Hp]].
  - rewrite (parse_kv_spec s pre r2 Hs Hp) in Hkv.
    destruct (trim (take_while not_eol r2)) as [|v vs] eqn:Ev;
      [discriminate|].
    destruct (trim pre) as [|k ks] eqn:Ek; [|discriminate].
    apply trim_nil_blank in Ek.
    destruct pre as [|y pre'].
    + exists r2. split; [exact Hs|]. now apply trim_cons_nonblank in Ev.
    + exfalso. destruct (suffix_head s y _ Hs) as (Hy & _ & _).
      simpl in Ek. apply andb_true_iff in Ek as [Ey _].
      fold c in Hy. congruence.
  - rewrite (parse_kv_at_eol s pre x r Hs Hp Hx) in Hkv. discriminate.
  - rewrite (parse_kv_at_eof s Hp) in Hkv. discriminate.
Qed.

(** X10: the parser aborts on the failed [assert(key_end)] exactly when the
    loop gets, without error, to dispatch a [=] that is followed on its
    line by a byte other than a space or a tab: a value without a key.  No
    other input makes an assertion of [parse_kv] fail. *)
Theorem aborts_exactly_at_value_without_key b :
  parse_ini (load b) = Abort <->
  exists s r2,
    steps (load b) s /\ suffix s = EQUALS :: r2 /\
    forallb is_blank (take_while not_eol r2) = false.
Proof.
  split.
  - intros H. destruct (parse_ini_Abort_inv _ H) as (s & Hrun & Hb & Hs).
    destruct (parse_ini_step_Abort_inv s Hb Hs) as (r2 & Hsuf & Hv).
    now exists s, r2.
  - intros (s & r2 & Hrun & Hs & Hv).
    destruct (suffix_head s EQUALS r2 Hs) as (Hbyte & _ & Hb).
    rewrite (steps_parse_ini _ _ Hrun), parse_ini_unfold, Hb.
    unfold parse_ini_step.
    rewrite dispatch_kv by (now rewrite Hbyte).
    rewrite (parse_kv_spec s [] r2 Hs eq_refl).
    pose proof (trim_nonblank _ Hv) as Hne.
    destruct (trim (take_while not_eol r2)); [congruence | reflexivity].
Qed.

Lemma aborts_exactly_at_value_without_key_witness :
  parse_ini (load (list_ascii_of_string ("a=1" ++ nl ++ "b=2"))) = Abort.
Proof.
  apply (proj2 (aborts_exactly_at_value_without_key
                  (list_ascii_of_string ("a=1" ++ nl ++ "b=2")))).
  eexists. exists (list_ascii_of_string "2"). split; [|split].
  - eapply steps_next; [reflexivity | vm_compute; reflexivity |].
    apply steps_refl.
  - reflexivity.
  - reflexivity.
Defined.

(** ** The ranges of [cursor] and [line] in a run *)

Lemma parse_ini_step_line_mono s s' :
  parse_ini_step s = Ok s' -> line s <= line s'.
Proof.
  intros H. apply parse_ini_step_Ok_inv in H
    as [(_ & n & Hn & [-> | ->]) | [(_ & s0 & H0 & ->) | (_ & s0 & H0 & ->)]];
    simpl; try lia.
  - apply parse_section_header_Ok_inv in H0 as (name & tail & _ & _ & ->).
    simpl. lia.
  - apply parse_kv_Ok_inv in H0 as (pre & r2 & _ & _ & _ & _ & ->).
    simpl. lia.
Qed.

Lemma steps_line_mono s s' : steps s s' -> line s <= line s'.
Proof.
  induction 1 as [|s s1 s2 _ Hs _ IH]; [lia|].
  pose proof (parse_ini_step_line_mono s s1 Hs). lia.
Qed.

(** X11: in every state of a run on a loaded buffer the cursor is at most
    one past the end of the buffer, and the line counter is at least 1 and at
    most one more than the cursor: on a buffer that [read_entire_file] can
    hold no [int] increment overflows.  A parse that returns 0 has run the
    cursor to the end of the buffer or one past it. *)
Theorem run_stays_in_range b :
  (forall s, steps (load b) s ->
             cursor s <= List.length b + 1 /\
             1 <= line s /\ line s <= cursor s + 1) /\
  (forall s, parse_ini (load b) = Ok s ->
             List.length b <= cursor s /\ cursor s <= List.length b + 1).
Proof.
  assert (H : forall s, steps (load b) s ->
                        cursor s <= List.length b + 1 /\
                        1 <= line s /\ line s <= cursor s + 1).
  { intros s Hrun.
    destruct (steps_bounds (load b) s Hrun) as [H1 H2]; [simpl; lia|].
    pose proof (steps_line_mono _ _ Hrun) as H3. simpl in *. lia. }
  split; [exact H|].
  intros s Hp. destruct (parse_ini_Ok_inv _ _ Hp) as [Hrun Hb].
  pose proof (steps_buf _ _ Hrun) as Hbuf. simpl in Hbuf.
  apply in_bounds_false in Hb. rewrite Hbuf in Hb.
  destruct (H s Hrun) as (Hc & _). lia.
Qed.

Lemma run_stays_in_range_witness :
  let b := list_ascii_of_string ("k=v" ++ nl) in
  exists s, parse_ini (load b) = Ok s /\ cursor s = 5 /\ List.length b = 4 /\
            cursor s <= List.length b + 1.
Proof.
  cbv zeta.
  assert (H : exists s,
            parse_ini (load (list_ascii_of_string ("k=v" ++ nl))) = Ok s /\
            cursor s = 5)
    by (eexists; split; vm_compute; reflexivity).
  destruct H as (s & H & Hc). exists s.
  split; [exact H|]. split; [exact Hc|]. split; [reflexivity|].
  exact (proj2 (proj2 (run_stays_in_range _) s H)).
Defined.

(** ** The line of a diagnostic *)









(** ** Headers that are never closed *)

(** X13: a ['['] with no [']'] after it fails the whole parse.  When the loop
    dispatches such a ['['] the parse returns [UnterminatedSection] with the
    line counter as it stood at the ['[']: the scan runs to the end of the
    buffer, where it leaves the cursor, without counting the line ends it
    crosses, and the section and the properties are left as they were. *)
Theorem unclosed_header_fails b s :
  steps (load b) s ->
  in_bounds s = true ->
  byte_at s (cursor s) = LBRACKET ->
  forallb not_rbracket (skipn (cursor s + 1) b) = true ->
  parse_ini (load b)
  = Err UnterminatedSection (line s) (set_cursor (List.length b) s).
Proof.
  intros Hrun Hb Hc Hn.
  pose proof (steps_buf _ _ Hrun) as Hbuf. simpl in Hbuf.
  rewrite (steps_parse_ini _ _ Hrun), parse_ini_unfold, Hb.
  unfold parse_ini_step. rewrite (dispatch_header s Hc).
  rewrite parse_section_header_spec. cbv zeta. rewrite Hbuf.
  rewrite (drop_while_all not_rbracket _ Hn).
  rewrite (take_while_all not_rbracket _ Hn), length_skipn.
  apply in_bounds_true in Hb. rewrite Hbuf in Hb.
  do 2 f_equal. lia.
Qed.

Lemma unclosed_header_fails_witness :
  let b := list_ascii_of_string (nl ++ "; c" ++ crlf ++ "[x" ++ nl ++ "y") in
  exists s,
    steps (load b) s /\ cursor s = 6 /\ line s = 3 /\
    parse_ini (load b) = Err UnterminatedSection 3 (set_cursor 10 s).
Proof.
  cbv zeta.
  exists (incr_line
            (set_cursor 6
               (incr_line
                  (load (list_ascii_of_string
                           (nl ++ "; c" ++ crlf ++ "[x" ++ nl ++ "y")))))).
  assert (Hrun : steps
            (load (list_ascii_of_string
                     (nl ++ "; c" ++ crlf ++ "[x" ++ nl ++ "y")))
            (incr_line
               (set_cursor 6
                  (incr_line
                     (load (list_ascii_of_string
                              (nl ++ "; c" ++ crlf ++ "[x" ++ nl ++ "y"))))))).
  { eapply steps_next; [reflexivity | vm_compute; reflexivity |].
    eapply steps_next; [reflexivity | vm_compute; reflexivity |].
    eapply steps_next; [reflexivity | vm_compute; reflexivity |].
    apply steps_refl. }
  split; [exact Hrun|]. split; [reflexivity|]. split; [reflexivity|].
  apply (unclosed_header_fails _ _ Hrun); reflexivity.
Defined.

(** ** [parse_kv] on a line with an [=] *)

(** X14: what [parse_kv] makes of the bytes [pre] before the first [=] and
    the bytes [r2] after it, the value text being [r2] up to its first line
    terminator.  A value text of spaces and tabs only gives [MissingValue]
    with the line counter as it is, and no record.  Otherwise, a key text of
    spaces and tabs only stops at [assert(key_end)]; any other gives exactly
    one more record, with the current section, with the key text and the
    value text without the spaces and tabs around them as key and value, and
    leaves the line counter and the section as they were.  In every case but
    the assertion the cursor is left one past the line terminator, or at the
    end of the buffer when there is none. *)
Theorem parse_kv_outcome ini pre r2 :
  suffix ini = pre ++ EQUALS :: r2 ->
  forallb key_byte pre = true ->
  (forallb is_blank (take_while not_eol r2) = true ->
   parse_kv ini
   = Err MissingValue (line ini) (set_cursor (kv_end ini pre r2) ini)) /\
  (forallb is_blank (take_while not_eol r2) = false ->
   forallb is_blank pre = true ->
   parse_kv ini = Abort) /\
  (forallb is_blank (take_while not_eol r2) = false ->
   forallb is_blank pre = false ->
   exists s' kv,
     parse_kv ini = Ok s' /\
     properties s' = properties ini ++ [kv] /\
     kv_section kv = section ini /\
     slice_bytes (buf ini) (key kv) = trim pre /\
     slice_bytes (buf ini) (value kv) = trim (take_while not_eol r2) /\
     buf s' = buf ini /\ cursor s' = kv_end ini pre r2 /\
     line s' = line ini /\ section s' = section ini).
Proof.
  intros Hs Hp. pose proof (parse_kv_spec ini pre r2 Hs Hp) as Hkv.
  split; [|split].
  - intros Hv. now rewrite Hkv, (trim_blank _ Hv).
  - intros Hv Hk. apply trim_nonblank in Hv. rewrite Hkv, (trim_blank _ Hk).
    now destruct (trim (take_while not_eol r2)).
  - intros Hv Hk. apply trim_nonblank in Hv. apply trim_nonblank in Hk.
    exists (push_back (kv_record ini pre r2)
              (set_cursor (kv_end ini pre r2) ini)), (kv_record ini pre r2).
    split.
    { rewrite Hkv. destruct (trim (take_while not_eol r2)); [congruence|].
      destruct (trim pre); [congruence | reflexivity]. }
    split; [reflexivity|]. split; [reflexivity|].
    split; [now apply kv_record_key_bytes|].
    split; [now apply kv_record_value_bytes|].
    now repeat split.
Qed.

Lemma parse_kv_outcome_witness :
  let b := list_ascii_of_string ("[s]" ++ crlf ++ " key = some value " ++ crlf
                                 ++ "next") in
  let ini := set_section {| data := Some 1; length := 1 |}
               (set_cursor 6 (incr_line (load b))) in
  steps (load b) ini /\
  exists s' kv,
    parse_kv ini = Ok s' /\
    properties s' = [kv] /\
    kv_strings b kv = ("s"%string, "key"%string, "some value"%string) /\
    cursor s' = 24 /\ byte_at ini 24 = LF /\ line s' = 2.
Proof.
  cbv zeta. split.
  { eapply steps_next; [reflexivity | vm_compute; reflexivity |].
    eapply steps_next; [reflexivity | vm_compute; reflexivity |].
    eapply steps_next; [reflexivity | vm_compute; reflexivity |].
    eapply steps_next; [reflexivity | vm_compute; reflexivity |].
    apply steps_refl. }
  destruct (parse_kv_outcome
              (set_section {| data := Some 1; length := 1 |}
                 (set_cursor 6
                    (incr_line
                       (load (list_ascii_of_string
                                ("[s]" ++ crlf ++ " key = some value " ++ crlf
                                 ++ "next"))))))
              (list_ascii_of_string "key ")
              (list_ascii_of_string (" some value " ++ crlf ++ "next"))
              ltac:(vm_compute; reflexivity) ltac:(vm_compute; reflexivity))
    as (_ & _ & Hok).
  destruct (Hok ltac:(vm_compute; reflexivity) ltac:(vm_compute; reflexivity))
    as (s' & kv & Hparse & Hprops & Hsec & Hkey & Hval & _ & Hcur & Hline & _).
  exists s', kv. split; [exact Hparse|]. split; [exact Hprops|].
  split.
  { unfold kv_strings, slice_string.
    change (buf (set_section {| data := Some 1; length := 1 |}
                   (set_cursor 6
                      (incr_line
                         (load (list_ascii_of_string
                                  ("[s]" ++ crlf ++ " key = some value "
                                   ++ crlf ++ "next")))))))
      with (list_ascii_of_string
              ("[s]" ++ crlf ++ " key = some value " ++ crlf ++ "next"))
      in Hkey, Hval.
    rewrite Hkey, Hval, Hsec. vm_compute. reflexivity. }
  split; [rewrite Hcur; vm_compute; reflexivity|].
  split; [reflexivity | rewrite Hline; reflexivity].
Defined.
